(** * Opmasks: operation masks of Turboshaft (src/compiler/turboshaft/opmasks.h)

    An opmask lets a type check on an operation look at the opcode and at some
    fields of the operation in one step: the first 8 bytes of the object are
    masked with a generic mask and compared with one specific shape.

    The header is a family of [constexpr] functions over [uint64_t]; they are
    embedded as functions over [Z] with the 64-bit wrap-around written out.
    Template parameters become ordinary parameters: a [MaskBuilder<Op,
    Fields...>] is a section over [Op] and the list [Fields]. *)

From Stdlib Require Import ZArith NArith List Lia Bool Permutation Btauto.
From Stdlib Require Import Strings.Byte.
From coqutil Require Import Z.bitblast.
Import ListNotations.
Local Open Scope Z_scope.

(** ** Machine integers *)

(** Modelled from the spec: [kBitsPerByte] is declared outside this header;
    the spec measures fields in bytes of 8 bits. *)
Definition kBitsPerByte : N := 8.

(** [sizeof(uint64_t)]. *)
Definition sizeof_uint64_t : N := 8.

(** [static_cast<uint64_t>(x)]: reduction modulo 2^64, which sign-extends a
    negative value of a narrower signed type. *)
Definition to_uint64 (x : Z) : Z := x mod 2 ^ 64.

(** [x << n] on [uint64_t]: bits shifted past bit 63 are lost. *)
Definition shl64 (x : Z) (n : N) : Z := to_uint64 (Z.shiftl x (Z.of_N n)).

(** [x >> n] on [uint64_t]. *)
Definition shr64 (x : Z) (n : N) : Z := Z.shiftr x (Z.of_N n).

(** [~x] on [uint64_t]. *)
Definition not64 (x : Z) : Z := Z.lxor x (to_uint64 (-1)).

(** ** Field descriptors *)

(** The integral (or enumeration) type [T] of a field, as [FIELD] hands it to
    [OpMaskField] after [UnwrapRepresentation] has replaced a representation
    wrapper by its [Enum]: what the header uses of it is [sizeof(T)] and how
    [static_cast<uint64_t>] extends it.  In C++ [sizeof(T)] is at least 1;
    nothing below depends on that. *)
Record IntType : Set := { is_signed : bool; sizeof : N }.

Definition uint8_t : IntType := {| is_signed := false; sizeof := 1 |}.
Definition int8_t : IntType := {| is_signed := true; sizeof := 1 |}.
Definition uint16_t : IntType := {| is_signed := false; sizeof := 2 |}.
Definition uint32_t : IntType := {| is_signed := false; sizeof := 4 |}.

(** The values a variable of type [T] can hold. *)
Definition has_type (T : IntType) (v : Z) : bool :=
  let bits := Z.of_N (sizeof T * kBitsPerByte) in
  if is_signed T
  then (- 2 ^ (bits - 1) <=? v) && (v <? 2 ^ (bits - 1))
  else (0 <=? v) && (v <? 2 ^ bits).

(** [template <typename T, size_t Offset> struct OpMaskField]. *)
Record OpMaskField : Set := { type : IntType; offset : N }.

Definition size (F : OpMaskField) : N := sizeof (type F).

(** The [static_assert] of [OpMaskField]. *)
Definition OpMaskField_ok (F : OpMaskField) : bool :=
  (offset F + size F <=? sizeof_uint64_t)%N.

(** [encode_for_mask]. *)
Definition encode_for_mask (value : Z) : Z := to_uint64 value.

(** A value is within the range representable by the field's byte width:
    it lies in [0, 2^(8*size) - 1], the unsigned contents of [size] bytes.
    Every value of an unsigned field type fits; a negative value of a signed
    field type does not. *)
Definition fits (F : OpMaskField) (v : Z) : bool :=
  (0 <=? v) && (v <? 2 ^ Z.of_N (size F * kBitsPerByte)).

(** ** Opcodes and masks *)

(** Modelled from the spec: the enumeration [Opcode] is declared in
    operations.h; it is an unsigned tag of one byte (the header asserts
    [sizeof(Operation::opcode) == sizeof(uint8_t)]). *)
Definition Opcode : Set := byte.

Definition opcode_value (opcode : Opcode) : Z := Z.of_N (Byte.to_N opcode).

(** Modelled from the spec: [OpMaskT<Op, Mask, Value>] is declared in
    operations.h; a Shape Mask is the triple of the owning operation type, the
    selector mask and the expected pattern. *)
Record OpMaskT : Set := { operation : Opcode; mask : Z; value : Z }.

(** ** MaskBuilder *)

Definition BuildBaseMask : Z := to_uint64 0xFF.

Definition EncodeBaseValue (opcode : Opcode) : Z :=
  to_uint64 (opcode_value opcode).

Definition BuildFieldMask (F : OpMaskField) : Z :=
  let ones := shr64 (to_uint64 (-1))
                    ((sizeof_uint64_t - size F) * kBitsPerByte) in
  shl64 ones (offset F * kBitsPerByte).

(** The two [static_assert]s of [BuildFieldMask]. *)
Definition BuildFieldMask_ok (F : OpMaskField) : bool :=
  (size F <? sizeof_uint64_t)%N && (offset F + size F <=? sizeof_uint64_t)%N.

Definition EncodeFieldValue (F : OpMaskField) (value : Z) : Z :=
  shl64 (encode_for_mask value) (offset F * kBitsPerByte).

Section MaskBuilder.

Variable Op : Opcode.
Variable Fields : list OpMaskField.

(** [(base_mask | ... | BuildFieldMask<Fields>())], a left fold. *)
Definition BuildMask : Z :=
  let base_mask := BuildBaseMask in
  fold_left (fun acc F => Z.lor acc (BuildFieldMask F)) Fields base_mask.

(** [(base_mask | ... | EncodeFieldValue<Fields>(args))]: the two packs are
    expanded together, [args] has one value per field. *)
Definition EncodeValue (args : list Z) : Z :=
  let base_mask := EncodeBaseValue Op in
  fold_left (fun acc Fa => Z.lor acc (EncodeFieldValue (fst Fa) (snd Fa)))
            (combine Fields args) base_mask.

(** [For<Args...> = OpMaskT<Op, BuildMask(), EncodeValue(Args...)>]. *)
Definition For (Args : list Z) : OpMaskT :=
  {| operation := Op; mask := BuildMask; value := EncodeValue Args |}.

(** What the compiler checks when [For] is instantiated. *)
Definition MaskBuilder_ok : bool :=
  forallb (fun F => OpMaskField_ok F && BuildFieldMask_ok F) Fields.

End MaskBuilder.

(** ** Operation records and the runtime check *)

(** Modelled from the spec: an operation record is a block of bytes whose
    byte 0 is the opcode; its layout is owned by operations.h. *)
Definition Operation : Set := list byte.

Definition byte_value (b : byte) : Z := Z.of_N (Byte.to_N b).

(** The unsigned integer stored in a run of bytes, least significant first. *)
Fixpoint load_le (bs : list byte) : Z :=
  match bs with
  | [] => 0
  | b :: rest => Z.lor (byte_value b) (Z.shiftl (load_le rest) 8)
  end.

(** Modelled from the spec: the leading word is the first 8 bytes of the
    record read as one unsigned 64-bit word. *)
Definition leading_word (R : Operation) : Z := load_le (firstn 8 R).

(** The opcode byte of a record. *)
Definition record_opcode (R : Operation) : Z := load_le (firstn 1 R).

(** The bytes of a record at a field's offset and width, as an unsigned
    integer. *)
Definition record_field (R : Operation) (F : OpMaskField) : Z :=
  load_le (firstn (N.to_nat (size F)) (skipn (N.to_nat (offset F)) R)).

(** Modelled from the spec: the value of type [T] that the record holds in a
    field, as the member access [R.f] reads it; the layout of the records is
    owned by operations.h.  The bytes of the field are read in two's
    complement when [T] is signed. *)
Definition record_value (R : Operation) (F : OpMaskField) : Z :=
  let u := record_field R F in
  let bits := Z.of_N (size F * kBitsPerByte) in
  if is_signed (type F) && (2 ^ (bits - 1) <=? u) then u - 2 ^ bits else u.

(** Modelled from the spec: [Test] loads the leading word [w] and returns
    [(w & selector_mask) == pattern]. *)
Definition Test (M : OpMaskT) (R : Operation) : bool :=
  Z.land (leading_word R) (mask M) =? value M.

(** Modelled from the spec: [TryCast] performs [Test]; on success it returns
    the record itself, seen as the owning type, and nothing otherwise. *)
Definition TryCast (M : OpMaskT) (R : Operation) : option Operation :=
  if Test M R then Some R else None.

(** ** Notions used in the statements *)

(** The contiguous run of [8 * size] one-bits that [BuildFieldMask] shifts
    into place. *)
Definition field_ones (F : OpMaskField) : Z := Z.ones (Z.of_N (size F * kBitsPerByte)).

Definition field_shift (F : OpMaskField) : Z := Z.of_N (offset F * kBitsPerByte).

(** Reading a field back out of a 64-bit word: shift right by [8 * offset]
    bits and keep [8 * size] bits. *)
Definition extract_field (F : OpMaskField) (w : Z) : Z :=
  Z.land (shr64 w (offset F * kBitsPerByte)) (field_ones F).

Definition lor_all (l : list Z) : Z := fold_right Z.lor 0 l.

Definition byte_range_disjoint (F G : OpMaskField) : bool :=
  ((offset F + size F <=? offset G) || (offset G + size G <=? offset F))%N.

(** No two fields of the list share a byte. *)
Fixpoint pairwise_disjoint (Fields : list OpMaskField) : bool :=
  match Fields with
  | [] => true
  | F :: rest => forallb (byte_range_disjoint F) rest && pairwise_disjoint rest
  end.

(** The field does not contain byte 0, where the opcode lives. *)
Definition clear_of_opcode (F : OpMaskField) : bool := (1 <=? offset F)%N.

(** The layout of a record type: the opcode byte and the fields occupy
    pairwise disjoint byte ranges. *)
Definition disjoint_layout (Fields : list OpMaskField) : bool :=
  forallb clear_of_opcode Fields && pairwise_disjoint Fields.

(** Every argument is within the range of its field, one argument per field. *)
Definition all_fit (Fields : list OpMaskField) (args : list Z) : bool :=
  (length args =? length Fields)%nat &&
  forallb (fun Fa => fits (fst Fa) (snd Fa)) (combine Fields args).

(** ** The encodings in the words of the specification *)

(** The selector mask in the words of the specification: the opcode byte
    [0xFF] OR-ed with, for each field, a run of [8 * size] one-bits shifted
    left by [8 * offset] bits. *)
Definition selector_mask_spec (Fields : list OpMaskField) : Z :=
  Z.lor 0xFF
    (lor_all (map (fun F => Z.shiftl (Z.ones (8 * Z.of_N (size F)))
                                     (8 * Z.of_N (offset F))) Fields)).

(** The encoding in the words of the specification: each converted value is
    masked to the declared width of its field before it is shifted. *)
Definition EncodeFieldValue_masked (F : OpMaskField) (value : Z) : Z :=
  shl64 (Z.land (encode_for_mask value) (field_ones F)) (offset F * kBitsPerByte).

Definition EncodeValue_masked (Op : Opcode) (Fields : list OpMaskField)
  (args : list Z) : Z :=
  fold_left (fun acc Fa => Z.lor acc (EncodeFieldValue_masked (fst Fa) (snd Fa)))
            (combine Fields args) (EncodeBaseValue Op).

(** All bits of [x] lie in the byte window of the field. *)
Definition in_byte_window (F : OpMaskField) (x : Z) : Prop :=
  forall i : Z,
    Z.testbit x i = true ->
    Z.of_N (offset F * kBitsPerByte) <= i < Z.of_N ((offset F + size F) * kBitsPerByte).

(** ** Segments of the leading word *)

(** One (mask, pattern) pair per selected part of the word: the opcode byte
    and each field. *)
Definition segment : Set := (Z * Z)%type.

Definition field_segment (Fa : OpMaskField * Z) : segment :=
  (BuildFieldMask (fst Fa), EncodeFieldValue (fst Fa) (snd Fa)).

Definition base_segment (Op : Opcode) : segment :=
  (BuildBaseMask, EncodeBaseValue Op).

Definition segments (Op : Opcode) (Fields : list OpMaskField) (args : list Z)
  : list segment :=
  base_segment Op :: map field_segment (combine Fields args).

(** The pattern of a segment has no bit outside its mask. *)
Definition covered (s : segment) : Prop := Z.land (snd s) (fst s) = snd s.

(** A word agrees with a segment on the bits the segment selects. *)
Definition agrees (w : Z) (s : segment) : Prop := Z.land w (fst s) = snd s.

Definition apart (s t : segment) : Prop := Z.land (fst s) (fst t) = 0.

(** ** Concrete builders and records *)

Definition kind_field : OpMaskField := {| type := uint8_t; offset := 1 |}.
Definition rep_field : OpMaskField := {| type := uint8_t; offset := 2 |}.
Definition scenario_op : Opcode := Byte.x02.

Definition overlap_fields : list OpMaskField :=
  [ {| type := uint16_t; offset := 1 |}; {| type := uint8_t; offset := 2 |} ].

Definition overlap_record : Operation :=
  [Byte.x02; Byte.x01; Byte.x05; Byte.x00; Byte.x00; Byte.x00; Byte.x00; Byte.x00].

Definition scenario_word32 : Operation :=
  [Byte.x02; Byte.x00; Byte.x00; Byte.x07; Byte.x00; Byte.x00; Byte.x00; Byte.x00].

Definition scenario_word64 : Operation :=
  [Byte.x02; Byte.x00; Byte.x01; Byte.x07; Byte.x00; Byte.x00; Byte.x00; Byte.x00].

Definition signed_kind_field : OpMaskField := {| type := int8_t; offset := 1 |}.

Definition opcode_alias_field : OpMaskField := {| type := uint8_t; offset := 0 |}.

Definition negative_kind_record : Operation :=
  [Byte.x02; Byte.xff; Byte.x00; Byte.x00; Byte.x00; Byte.x00; Byte.x00; Byte.x00].

Definition alias_record : Operation :=
  [Byte.x03; Byte.x00; Byte.x00; Byte.x00; Byte.x00; Byte.x00; Byte.x00; Byte.x00].

(** The field ends before byte 7, the last byte of the leading word. *)
Definition leaves_top_byte (F : OpMaskField) : bool :=
  (offset F + size F <=? 7)%N.

(** ** The masks the header declares *)

(** The layout of the operations is declared in operations.h: the descriptor
    that [FIELD(op, field_name)] yields, the opcode of the operation and the
    values of its enumerators are parameters of the masks below. *)

(** [using ProjectionMask = MaskBuilder<ProjectionOp, FIELD(ProjectionOp, index)>]. *)
Definition ProjectionMask (index : OpMaskField) : list OpMaskField := [index].

(** [using kProjection0 = ProjectionMask::For<0>]. *)
Definition kProjection0 (ProjectionOp : Opcode) (index : OpMaskField) : OpMaskT :=
  For ProjectionOp (ProjectionMask index) [0].

(** [using kProjection1 = ProjectionMask::For<1>]. *)
Definition kProjection1 (ProjectionOp : Opcode) (index : OpMaskField) : OpMaskT :=
  For ProjectionOp (ProjectionMask index) [1].

(** [using WordBinopMask =
     MaskBuilder<WordBinopOp, FIELD(WordBinopOp, kind), FIELD(WordBinopOp, rep)>]. *)
Definition WordBinopMask (kind rep : OpMaskField) : list OpMaskField := [kind; rep].

(** [using WordBinopKindMask = MaskBuilder<WordBinopOp, FIELD(WordBinopOp, kind)>]. *)
Definition WordBinopKindMask (kind : OpMaskField) : list OpMaskField := [kind].

(** [using kWord32BitwiseAnd = WordBinopMask::For<WordBinopOp::Kind::kBitwiseAnd,
                                                  WordRepresentation::Word32()>]. *)
Definition kWord32BitwiseAnd (WordBinopOp : Opcode) (kind rep : OpMaskField)
  (Kind_kBitwiseAnd Word32 : Z) : OpMaskT :=
  For WordBinopOp (WordBinopMask kind rep) [Kind_kBitwiseAnd; Word32].

(** [using kWord64BitwiseAnd = WordBinopMask::For<WordBinopOp::Kind::kBitwiseAnd,
                                                  WordRepresentation::Word64()>]. *)
Definition kWord64BitwiseAnd (WordBinopOp : Opcode) (kind rep : OpMaskField)
  (Kind_kBitwiseAnd Word64 : Z) : OpMaskT :=
  For WordBinopOp (WordBinopMask kind rep) [Kind_kBitwiseAnd; Word64].

(** [using kBitwiseAnd = WordBinopKindMask::For<WordBinopOp::Kind::kBitwiseAnd>]. *)
Definition kBitwiseAnd (WordBinopOp : Opcode) (kind : OpMaskField)
  (Kind_kBitwiseAnd : Z) : OpMaskT :=
  For WordBinopOp (WordBinopKindMask kind) [Kind_kBitwiseAnd].

(** A record of another operation, for the examples. *)
Definition other_op : Opcode := Byte.x09.

(** ** Tactics for bitwise equalities *)

Ltac bit_of H i :=
  let E := fresh "E" in
  pose proof (f_equal (fun z => Z.testbit z i) H) as E; cbv beta in E;
  rewrite ?Z.land_spec, ?Z.lor_spec, ?Z.bits_0 in E.

Ltac bits_cases :=
  rewrite ?Z.land_spec, ?Z.lor_spec, ?Z.bits_0;
  repeat match goal with
         | |- context [Z.testbit ?x ?i] => destruct (Z.testbit x i)
         | H : context [Z.testbit ?x ?i] |- _ => destruct (Z.testbit x i)
         end;
  simpl in *; congruence.

Ltac bitblast_low :=
  Z.bitblast;
  repeat match goal with
         | |- context [Z.testbit ?x ?k] => rewrite (Z.testbit_neg_r x k) by lia
         end;
  try btauto.

(** * Properties *)

(** ** The scenario of the specification, evaluated *)

Example scenario_mask :
  BuildMask [kind_field; rep_field] = 0x00FFFFFF.
Proof. reflexivity. Qed.

Example scenario_pattern :
  EncodeValue scenario_op [kind_field; rep_field] [0; 0] = 0x00000002.
Proof. reflexivity. Qed.

Example scenario_word32_matches :
  Test (For scenario_op [kind_field; rep_field] [0; 0]) scenario_word32 = true.
Proof. reflexivity. Qed.

Example scenario_word64_rejected :
  Z.land (leading_word scenario_word64) (BuildMask [kind_field; rep_field])
  = 0x00010002 /\
  Test (For scenario_op [kind_field; rep_field] [0; 0]) scenario_word64 = false.
Proof. split; reflexivity. Qed.

Example scenario_kind_only :
  BuildMask [kind_field] = 0x0000FFFF /\
  EncodeValue scenario_op [kind_field] [0] = 0x00000002 /\
  Test (For scenario_op [kind_field] [0]) scenario_word32 = true /\
  Test (For scenario_op [kind_field] [0]) scenario_word64 = true.
Proof. repeat split; reflexivity. Qed.

(** ** Bit-level facts about the 64-bit operations *)

Lemma to_uint64_land (x : Z) : to_uint64 x = Z.land x (Z.ones 64).
Proof. unfold to_uint64. now rewrite Z.land_ones by lia. Qed.

Lemma to_uint64_small (x : Z) : 0 <= x < 2 ^ 64 -> to_uint64 x = x.
Proof. intros H. unfold to_uint64. now apply Z.mod_small. Qed.

Lemma byte_value_range (b : byte) : 0 <= byte_value b < 2 ^ 8.
Proof.
  unfold byte_value. pose proof (Byte.to_N_bounded b). change (2 ^ 8) with 256. lia.
Qed.

(** A number below [2^k] has no bit at position [k] or above. *)
Lemma testbit_above (v k i : Z) :
  0 <= v < 2 ^ k -> k <= i -> Z.testbit v i = false.
Proof.
  intros [Hv0 Hv] Hi.
  destruct (Z.eq_dec v 0) as [->|Hne]; [apply Z.testbit_0_l|].
  apply Z.bits_above_log2; [lia|].
  assert (Z.log2 v < k); [|lia].
  apply Z.log2_lt_pow2; lia.
Qed.

Lemma BuildFieldMask_ok_inv (F : OpMaskField) :
  BuildFieldMask_ok F = true ->
  (size F < 8)%N /\ (offset F + size F <= 8)%N.
Proof.
  unfold BuildFieldMask_ok, sizeof_uint64_t. intros H.
  apply andb_true_iff in H as [H1 H2].
  apply N.ltb_lt in H1. apply N.leb_le in H2. now split.
Qed.

Lemma BuildFieldMask_run (F : OpMaskField) :
  BuildFieldMask_ok F = true ->
  BuildFieldMask F = Z.shiftl (field_ones F) (field_shift F).
Proof.
  intros H. apply BuildFieldMask_ok_inv in H as [Hs Ho].
  unfold BuildFieldMask, shl64, shr64, field_ones, field_shift,
    sizeof_uint64_t, kBitsPerByte.
  change (to_uint64 (-1)) with (Z.ones 64).
  rewrite to_uint64_land.
  Z.bitblast.
Qed.

(** ** Folding [|] over a list *)

Lemma fold_left_lor {A : Type} (g : A -> Z) (l : list A) (a : Z) :
  fold_left (fun acc x => Z.lor acc (g x)) l a = Z.lor a (lor_all (map g l)).
Proof.
  revert a. induction l as [|x l IH]; intros a; simpl.
  - now rewrite Z.lor_0_r.
  - now rewrite IH, Z.lor_assoc.
Qed.

Lemma lor_all_perm (l l' : list Z) :
  Permutation l l' -> lor_all l = lor_all l'.
Proof.
  induction 1 as [|x l l' _ IH|x y l|l l' l'' _ IH1 _ IH2]; simpl.
  - reflexivity.
  - now rewrite IH.
  - rewrite !Z.lor_assoc. f_equal. apply Z.lor_comm.
  - congruence.
Qed.

Lemma BuildMask_lor (Fields : list OpMaskField) :
  BuildMask Fields = Z.lor BuildBaseMask (lor_all (map BuildFieldMask Fields)).
Proof. unfold BuildMask. apply fold_left_lor. Qed.

Lemma EncodeValue_lor (Op : Opcode) (Fields : list OpMaskField) (args : list Z) :
  EncodeValue Op Fields args =
  Z.lor (EncodeBaseValue Op)
        (lor_all (map (fun Fa => EncodeFieldValue (fst Fa) (snd Fa))
                      (combine Fields args))).
Proof. unfold EncodeValue. apply fold_left_lor. Qed.

Lemma map_fst_combine {A B : Type} (l : list A) (l' : list B) :
  length l' = length l -> map fst (combine l l') = l.
Proof.
  revert l'. induction l as [|x l IH]; intros [|y l'] H; simpl in *;
    try discriminate; [reflexivity|]. f_equal. apply IH. lia.
Qed.

Lemma BuildMask_segments Op Fields args :
  length args = length Fields ->
  BuildMask Fields = lor_all (map fst (segments Op Fields args)).
Proof.
  intros Hlen. rewrite BuildMask_lor. unfold segments. simpl. f_equal.
  rewrite map_map. simpl.
  rewrite <- (map_fst_combine Fields args Hlen) at 1.
  now rewrite map_map.
Qed.

Lemma EncodeValue_segments Op Fields args :
  EncodeValue Op Fields args = lor_all (map snd (segments Op Fields args)).
Proof.
  rewrite EncodeValue_lor. unfold segments. simpl. f_equal.
  now rewrite map_map.
Qed.

(** ** Matching a word against a list of segments *)

Lemma covered_lor_all (segs : list segment) :
  Forall covered segs ->
  Z.land (lor_all (map snd segs)) (lor_all (map fst segs)) = lor_all (map snd segs).
Proof.
  induction 1 as [|s segs Hs _ IH]; simpl; [reflexivity|].
  unfold covered in Hs.
  apply Z.bits_inj'; intros i _.
  bit_of Hs i. bit_of IH i. bits_cases.
Qed.

Lemma apart_lor_all (s : segment) (segs : list segment) :
  Forall (apart s) segs -> Z.land (fst s) (lor_all (map fst segs)) = 0.
Proof.
  induction 1 as [|t segs Ht _ IH]; simpl; [apply Z.land_0_r|].
  unfold apart in Ht.
  apply Z.bits_inj'; intros i _.
  bit_of Ht i. bit_of IH i. bits_cases.
Qed.

(** Agreement with every segment gives the masked equality; this direction
    needs no disjointness. *)
Lemma agrees_all_masked (w : Z) (segs : list segment) :
  Forall (agrees w) segs ->
  Z.land w (lor_all (map fst segs)) = lor_all (map snd segs).
Proof.
  induction 1 as [|s segs Hs _ IH]; simpl; [apply Z.land_0_r|].
  unfold agrees in Hs.
  apply Z.bits_inj'; intros i _.
  bit_of Hs i. bit_of IH i. bits_cases.
Qed.

(** With segments that are pairwise apart, the masked equality splits into
    one equality per segment. *)
Lemma masked_agrees_all (w : Z) (segs : list segment) :
  Forall covered segs ->
  ForallOrdPairs apart segs ->
  Z.land w (lor_all (map fst segs)) = lor_all (map snd segs) ->
  Forall (agrees w) segs.
Proof.
  intros Hcov Hap. revert Hcov.
  induction Hap as [|s segs Hs Hap IH]; intros Hcov Hw; [constructor|].
  inversion Hcov as [|? ? Hc Hcov']; subst.
  simpl in Hw.
  pose proof (apart_lor_all s segs Hs) as Hd.
  pose proof (covered_lor_all segs Hcov') as Hrest.
  unfold covered in Hc.
  constructor.
  - unfold agrees. apply Z.bits_inj'; intros i _.
    bit_of Hw i. bit_of Hd i. bit_of Hrest i. bit_of Hc i. bits_cases.
  - apply IH; [assumption|].
    apply Z.bits_inj'; intros i _.
    bit_of Hw i. bit_of Hd i. bit_of Hrest i. bit_of Hc i. bits_cases.
Qed.

(** ** Fields as segments *)

Lemma fits_inv (F : OpMaskField) (v : Z) :
  fits F v = true -> 0 <= v < 2 ^ Z.of_N (size F * kBitsPerByte).
Proof.
  unfold fits. intros H. apply andb_true_iff in H as [H1 H2].
  apply Z.leb_le in H1. apply Z.ltb_lt in H2. now split.
Qed.

Lemma fits_land (F : OpMaskField) (v : Z) :
  fits F v = true -> Z.land v (field_ones F) = v.
Proof.
  intros H. apply fits_inv in H. unfold field_ones.
  rewrite Z.land_ones by lia. now apply Z.mod_small.
Qed.

Lemma land_ones_fits (F : OpMaskField) (x : Z) :
  fits F (Z.land x (field_ones F)) = true.
Proof.
  unfold fits, field_ones. rewrite Z.land_ones by lia.
  pose proof (Z.mod_pos_bound x (2 ^ Z.of_N (size F * kBitsPerByte))) as Hb.
  assert (0 < 2 ^ Z.of_N (size F * kBitsPerByte)) as Hp by (apply Z.pow_pos_nonneg; lia).
  specialize (Hb Hp).
  apply andb_true_iff. split; [apply Z.leb_le|apply Z.ltb_lt]; lia.
Qed.

Lemma EncodeFieldValue_shift (F : OpMaskField) (v : Z) :
  BuildFieldMask_ok F = true -> fits F v = true ->
  EncodeFieldValue F v = Z.shiftl v (field_shift F).
Proof.
  intros Hok Hv. apply BuildFieldMask_ok_inv in Hok as [Hs Ho].
  rewrite <- (fits_land F v Hv).
  unfold EncodeFieldValue, encode_for_mask, shl64, field_shift, field_ones,
    kBitsPerByte.
  rewrite !to_uint64_land.
  Z.bitblast.
Qed.

Lemma BuildBaseMask_ones : BuildBaseMask = Z.ones 8.
Proof. reflexivity. Qed.

Lemma EncodeBaseValue_value (Op : Opcode) : EncodeBaseValue Op = opcode_value Op.
Proof.
  unfold EncodeBaseValue. apply to_uint64_small.
  pose proof (byte_value_range Op). unfold byte_value in *. unfold opcode_value. lia.
Qed.

Lemma opcode_value_land (Op : Opcode) : Z.land (opcode_value Op) (Z.ones 8) = opcode_value Op.
Proof.
  rewrite Z.land_ones by lia. apply Z.mod_small. apply (byte_value_range Op).
Qed.

Lemma base_covered (Op : Opcode) : covered (base_segment Op).
Proof.
  unfold covered, base_segment. cbn [fst snd].
  rewrite BuildBaseMask_ones, EncodeBaseValue_value. apply opcode_value_land.
Qed.

Lemma field_covered (F : OpMaskField) (v : Z) :
  BuildFieldMask_ok F = true -> fits F v = true -> covered (field_segment (F, v)).
Proof.
  intros Hok Hv. unfold covered, field_segment. cbn [fst snd].
  rewrite BuildFieldMask_run, EncodeFieldValue_shift by assumption.
  rewrite <- (fits_land F v Hv).
  unfold field_shift, field_ones. Z.bitblast.
Qed.

Lemma fields_apart (F G : OpMaskField) (a b : Z) :
  BuildFieldMask_ok F = true -> BuildFieldMask_ok G = true ->
  byte_range_disjoint F G = true ->
  apart (field_segment (F, a)) (field_segment (G, b)).
Proof.
  intros HF HG Hd. unfold apart, field_segment. cbn [fst snd].
  rewrite !BuildFieldMask_run by assumption.
  unfold byte_range_disjoint in Hd. apply orb_true_iff in Hd.
  assert ((offset F + size F <= offset G)%N \/ (offset G + size G <= offset F)%N) as Hd'.
  { destruct Hd as [Hd|Hd]; apply N.leb_le in Hd; auto. }
  clear Hd.
  unfold field_shift, field_ones, kBitsPerByte.
  Z.bitblast.
Qed.

Lemma base_apart (Op : Opcode) (F : OpMaskField) (v : Z) :
  BuildFieldMask_ok F = true -> (1 <= offset F)%N ->
  apart (base_segment Op) (field_segment (F, v)).
Proof.
  intros HF Ho. unfold apart, base_segment, field_segment. cbn [fst snd].
  rewrite BuildFieldMask_run, BuildBaseMask_ones by assumption.
  unfold field_shift, field_ones, kBitsPerByte.
  Z.bitblast.
Qed.

Lemma land_field_mask (F : OpMaskField) (w : Z) :
  BuildFieldMask_ok F = true ->
  Z.land w (BuildFieldMask F) = Z.shiftl (extract_field F w) (field_shift F).
Proof.
  intros HF. rewrite BuildFieldMask_run by assumption.
  unfold extract_field, shr64, field_shift, field_ones, kBitsPerByte.
  Z.bitblast.
Qed.

Lemma shiftl_cancel (a b n : Z) : 0 <= n -> Z.shiftl a n = Z.shiftl b n -> a = b.
Proof.
  intros Hn H. rewrite !Z.shiftl_mul_pow2 in H by assumption.
  apply Z.mul_reg_r in H; [assumption|]. apply Z.pow_nonzero; lia.
Qed.

Lemma agrees_field (F : OpMaskField) (v w : Z) :
  BuildFieldMask_ok F = true -> fits F v = true ->
  agrees w (field_segment (F, v)) <-> extract_field F w = v.
Proof.
  intros HF Hv. unfold agrees, field_segment. cbn [fst snd].
  rewrite land_field_mask, EncodeFieldValue_shift by assumption.
  split.
  - apply shiftl_cancel. unfold field_shift. lia.
  - now intros ->.
Qed.

Lemma extract_field_fits (F : OpMaskField) (w : Z) : fits F (extract_field F w) = true.
Proof. apply land_ones_fits. Qed.

Lemma agrees_base (Op : Opcode) (w : Z) :
  agrees w (base_segment Op) <-> Z.land w (Z.ones 8) = opcode_value Op.
Proof.
  unfold agrees, base_segment. cbn [fst snd].
  now rewrite BuildBaseMask_ones, EncodeBaseValue_value.
Qed.

(** ** Records: bytes against the leading word *)

Lemma byte_value_land (b : byte) : Z.land (byte_value b) (Z.ones 8) = byte_value b.
Proof.
  rewrite Z.land_ones by lia. apply Z.mod_small. apply byte_value_range.
Qed.

Lemma load_le_firstn (n : nat) (bs : list byte) :
  load_le (firstn n bs) = Z.land (load_le bs) (Z.ones (8 * Z.of_nat n)).
Proof.
  revert bs. induction n as [|n IH]; intros bs.
  - simpl. now rewrite Z.land_0_r.
  - destruct bs as [|b bs]; [reflexivity|].
    cbn [firstn load_le]. rewrite IH.
    rewrite <- (byte_value_land b).
    bitblast_low.
Qed.

Lemma load_le_skipn (n : nat) (bs : list byte) :
  load_le (skipn n bs) = Z.shiftr (load_le bs) (8 * Z.of_nat n).
Proof.
  revert bs. induction n as [|n IH]; intros bs.
  - simpl. now rewrite Z.shiftr_0_r.
  - destruct bs as [|b bs]; [simpl; now rewrite Z.shiftr_0_l|].
    cbn [skipn load_le]. rewrite IH.
    rewrite <- (byte_value_land b).
    bitblast_low.
Qed.

Lemma record_field_word (R : Operation) (F : OpMaskField) :
  BuildFieldMask_ok F = true ->
  record_field R F = extract_field F (leading_word R).
Proof.
  intros HF. apply BuildFieldMask_ok_inv in HF as [Hs Ho].
  unfold record_field, extract_field, leading_word, shr64, field_ones, kBitsPerByte.
  rewrite !load_le_firstn, load_le_skipn.
  Z.bitblast.
Qed.

Lemma record_opcode_word (R : Operation) :
  record_opcode R = Z.land (leading_word R) (Z.ones 8).
Proof.
  unfold record_opcode, leading_word. rewrite !load_le_firstn. Z.bitblast.
Qed.

(** ** Whole builders *)

Lemma MaskBuilder_ok_inv (Fields : list OpMaskField) :
  MaskBuilder_ok Fields = true ->
  Forall (fun F => BuildFieldMask_ok F = true) Fields.
Proof.
  unfold MaskBuilder_ok. rewrite forallb_forall. intros H.
  apply Forall_forall. intros F HF. specialize (H F HF).
  now apply andb_true_iff in H as [_ H].
Qed.

Lemma all_fit_inv (Fields : list OpMaskField) (args : list Z) :
  all_fit Fields args = true ->
  Forall2 (fun F v => fits F v = true) Fields args.
Proof.
  unfold all_fit. intros H. apply andb_true_iff in H as [Hlen H].
  apply Nat.eqb_eq in Hlen. revert args Hlen H.
  induction Fields as [|F Fields IH]; intros [|v args] Hlen H;
    simpl in *; try discriminate; constructor.
  - now apply andb_true_iff in H as [H _].
  - apply andb_true_iff in H as [_ H]. apply IH; [lia|assumption].
Qed.

Lemma all_fit_intro (Fields : list OpMaskField) (args : list Z) :
  Forall2 (fun F v => fits F v = true) Fields args -> all_fit Fields args = true.
Proof.
  unfold all_fit. induction 1 as [|F v Fields args Hv _ IH]; [reflexivity|].
  apply andb_true_iff in IH as [Hlen Hall]. apply Nat.eqb_eq in Hlen.
  apply andb_true_iff. split.
  - apply Nat.eqb_eq. simpl. lia.
  - simpl. now rewrite Hv, Hall.
Qed.

Lemma segments_covered Op Fields args :
  MaskBuilder_ok Fields = true -> all_fit Fields args = true ->
  Forall covered (segments Op Fields args).
Proof.
  intros Hok Hfit. apply MaskBuilder_ok_inv in Hok. apply all_fit_inv in Hfit.
  unfold segments. constructor; [apply base_covered|].
  revert Hok. induction Hfit as [|F v Fields args Hv _ IH]; intros Hok;
    simpl; constructor; inversion Hok; subst.
  - now apply field_covered.
  - now apply IH.
Qed.

Lemma fields_segments_apart F a Fields args :
  BuildFieldMask_ok F = true ->
  Forall (fun G => BuildFieldMask_ok G = true) Fields ->
  forallb (byte_range_disjoint F) Fields = true ->
  Forall (apart (field_segment (F, a))) (map field_segment (combine Fields args)).
Proof.
  intros HF Hok. revert args.
  induction Hok as [|G Fields HG _ IH]; intros [|b args] Hd; simpl in *;
    try constructor.
  - apply andb_true_iff in Hd as [Hd _]. now apply fields_apart.
  - apply andb_true_iff in Hd as [_ Hd]. now apply IH.
Qed.

Lemma segments_apart Op Fields args :
  MaskBuilder_ok Fields = true -> disjoint_layout Fields = true ->
  ForallOrdPairs apart (segments Op Fields args).
Proof.
  intros Hok Hd. apply MaskBuilder_ok_inv in Hok.
  unfold disjoint_layout in Hd. apply andb_true_iff in Hd as [Hclear Hpair].
  unfold segments. constructor.
  - clear Hpair. revert args Hclear.
    induction Hok as [|F Fields HF _ IH]; intros [|a args] Hclear; simpl in *;
      try constructor; apply andb_true_iff in Hclear as [Hc Hclear].
    + apply base_apart; [assumption|]. now apply N.leb_le in Hc.
    + now apply IH.
  - clear Hclear. revert args Hpair.
    induction Hok as [|F Fields HF Hok IH]; intros [|a args] Hpair; simpl in *;
      try constructor; apply andb_true_iff in Hpair as [Hd Hpair].
    + now apply fields_segments_apart.
    + now apply IH.
Qed.

Lemma agrees_segments Op Fields args w :
  MaskBuilder_ok Fields = true -> all_fit Fields args = true ->
  Forall (agrees w) (segments Op Fields args) <->
  Z.land w (Z.ones 8) = opcode_value Op /\
  Forall2 (fun F v => extract_field F w = v) Fields args.
Proof.
  intros Hok Hfit. apply MaskBuilder_ok_inv in Hok. apply all_fit_inv in Hfit.
  unfold segments. rewrite Forall_cons_iff, agrees_base.
  apply and_iff_compat_l.
  revert Hok. induction Hfit as [|F v Fields args Hv _ IH]; intros Hok; simpl.
  - split; constructor.
  - inversion Hok as [|? ? HF Hok']; subst.
    rewrite Forall_cons_iff, (agrees_field F v w HF Hv), (IH Hok').
    split.
    + intros [H1 H2]. now constructor.
    + intros H. inversion H; subst. now split.
Qed.

(** The masked comparison of [Test], written on the leading word. *)
Lemma Test_true_iff Op Fields args R :
  length args = length Fields ->
  Test (For Op Fields args) R = true <->
  Z.land (leading_word R) (lor_all (map fst (segments Op Fields args))) =
  lor_all (map snd (segments Op Fields args)).
Proof.
  intros Hlen. unfold Test, For. cbn [mask value].
  rewrite Z.eqb_eq, <- (BuildMask_segments Op Fields args Hlen),
    <- EncodeValue_segments.
  reflexivity.
Qed.

Lemma all_fit_length Fields args :
  all_fit Fields args = true -> length args = length Fields.
Proof.
  unfold all_fit. intros H. apply andb_true_iff in H as [H _].
  now apply Nat.eqb_eq in H.
Qed.

Lemma record_fields_word (R : Operation) (Fields : list OpMaskField) (args : list Z) :
  MaskBuilder_ok Fields = true ->
  Forall2 (fun F v => record_field R F = v) Fields args <->
  Forall2 (fun F v => extract_field F (leading_word R) = v) Fields args.
Proof.
  intros Hok. apply MaskBuilder_ok_inv in Hok.
  split; intros H; induction H as [|F v Fields args HF _ IH]; constructor;
    inversion Hok; subst; try (now apply IH).
  - now rewrite <- record_field_word.
  - now rewrite record_field_word.
Qed.

(** ** Soundness of the membership test *)

(** C1, as stated, fails when two field descriptors share a byte: with a
    16-bit field at offset 1 bound to 1 and an 8-bit field at offset 2 bound
    to 5, the record with leading bytes [2, 1, 5] passes [Test] although its
    16-bit field holds 0x0501, not 1.  It fails as well when a field
    descriptor sits on byte 0, as the descriptor of the [opcode] member
    itself does: with opcode 2 and an 8-bit field at offset 0 bound to 1, the
    record with leading byte 3 passes [Test] although its opcode byte is
    not 2. *)
Lemma Test_sound_overlap_counterexample :
  (MaskBuilder_ok overlap_fields = true /\
   all_fit overlap_fields [1; 5] = true /\
   Test (For scenario_op overlap_fields [1; 5]) overlap_record = true /\
   ~ (record_opcode overlap_record = opcode_value scenario_op /\
      Forall2 (fun F v => record_field overlap_record F = v)
              overlap_fields [1; 5])) /\
  (MaskBuilder_ok [opcode_alias_field] = true /\
   all_fit [opcode_alias_field] [1] = true /\
   Test (For scenario_op [opcode_alias_field] [1]) alias_record = true /\
   ~ (record_opcode alias_record = opcode_value scenario_op /\
      Forall2 (fun F v => record_field alias_record F = v)
              [opcode_alias_field] [1])).
Proof.
  split; (split; [reflexivity|]; split; [reflexivity|]; split; [reflexivity|]).
  - intros [_ H]. inversion H as [|? ? ? ? Hv _]; subst.
    vm_compute in Hv. discriminate.
  - intros [H _]. vm_compute in H. discriminate.
Qed.

(** C1 (amended): when the fields lie within the leading word, occupy
    pairwise disjoint byte ranges that leave out byte 0, and every value is
    within the range of its field's byte width, [Test] of the mask built by
    [For] is true exactly when the record's opcode byte is the opcode of [Op]
    and the bytes of the record at each field's offset and width hold the
    value bound to that field. *)
Theorem Test_sound_disjoint Op Fields args R :
  MaskBuilder_ok Fields = true ->
  all_fit Fields args = true ->
  disjoint_layout Fields = true ->
  Test (For Op Fields args) R = true <->
  record_opcode R = opcode_value Op /\
  Forall2 (fun F v => record_field R F = v) Fields args.
Proof.
  intros Hok Hfit Hd.
  rewrite (Test_true_iff Op Fields args R (all_fit_length _ _ Hfit)).
  rewrite record_opcode_word, (record_fields_word R Fields args Hok).
  rewrite <- (agrees_segments Op Fields args (leading_word R) Hok Hfit).
  split.
  - apply masked_agrees_all.
    + now apply segments_covered.
    + now apply segments_apart.
  - apply agrees_all_masked.
Qed.

Lemma Test_sound_disjoint_witness :
  MaskBuilder_ok [kind_field; rep_field] = true /\
  all_fit [kind_field; rep_field] [0; 0] = true /\
  disjoint_layout [kind_field; rep_field] = true /\
  (Test (For scenario_op [kind_field; rep_field] [0; 0]) scenario_word64 = true <->
   record_opcode scenario_word64 = opcode_value scenario_op /\
   Forall2 (fun F v => record_field scenario_word64 F = v)
           [kind_field; rep_field] [0; 0]).
Proof.
  split; [reflexivity|]. split; [reflexivity|]. split; [reflexivity|].
  apply (Test_sound_disjoint scenario_op [kind_field; rep_field] [0; 0]
           scenario_word64); reflexivity.
Defined.

(** ** Narrowing *)

(** A mask bound to the unsigned contents of the record's bytes in [Sub] and
    to the record's opcode accepts the record, and every record that agrees
    with it on the opcode byte and on the fields of [Sub]. *)
Lemma narrowing_unsigned_read Op Sub args R :
  MaskBuilder_ok Sub = true ->
  record_opcode R = opcode_value Op ->
  Forall2 (fun F v => record_field R F = v) Sub args ->
  Test (For Op Sub args) R = true /\
  forall R' : Operation,
    record_opcode R' = record_opcode R ->
    (forall F, In F Sub -> record_field R' F = record_field R F) ->
    Test (For Op Sub args) R' = true.
Proof.
  intros Hok Hop Hargs.
  assert (forall R0 : Operation,
             record_opcode R0 = opcode_value Op ->
             Forall2 (fun F v => record_field R0 F = v) Sub args ->
             Test (For Op Sub args) R0 = true) as Hmatch.
  { intros R0 Hop0 Hargs0.
    assert (all_fit Sub args = true) as Hfit.
    { apply all_fit_intro. apply (record_fields_word R0 Sub args Hok) in Hargs0.
      clear - Hargs0. induction Hargs0 as [|F v Sub args HF _ IH]; constructor;
        [|assumption]. subst v. apply extract_field_fits. }
    rewrite (Test_true_iff Op Sub args R0 (all_fit_length _ _ Hfit)).
    apply agrees_all_masked.
    apply (agrees_segments Op Sub args (leading_word R0) Hok Hfit).
    rewrite <- record_opcode_word.
    split; [assumption|]. now apply (record_fields_word R0 Sub args Hok). }
  split; [now apply Hmatch|].
  intros R' Hop' Hsame. apply Hmatch; [congruence|].
  clear - Hargs Hsame.
  induction Hargs as [|F v Sub args HF _ IH]; constructor.
  - rewrite Hsame; [assumption|now left].
  - apply IH. intros G HG. apply Hsame. now right.
Qed.

Lemma record_field_bound (R : Operation) (F : OpMaskField) :
  0 <= record_field R F < 2 ^ Z.of_N (size F * kBitsPerByte).
Proof.
  unfold record_field. rewrite load_le_firstn.
  replace (8 * Z.of_nat (N.to_nat (size F))) with (Z.of_N (size F * kBitsPerByte))
    by (unfold kBitsPerByte; lia).
  rewrite Z.land_ones by lia. apply Z.mod_pos_bound.
  apply Z.pow_pos_nonneg; lia.
Qed.

(** A non-negative value of the field's type is stored as itself. *)
Lemma record_value_nonneg (R : Operation) (F : OpMaskField) (v : Z) :
  record_value R F = v -> 0 <= v -> record_field R F = v.
Proof.
  unfold record_value. pose proof (record_field_bound R F) as Hb.
  destruct (is_signed (type F) && _); intros H Hv; lia.
Qed.

(** C7, as stated, fails for a field of a signed type that holds a negative
    value: the record with opcode 2 whose [int8_t] field at offset 1 holds -1
    (byte 0xFF) is rejected by the mask built over that field with the
    matching value -1 and the matching opcode, because the pattern carries
    the sign extension of -1 outside the selector mask. *)
Lemma narrowing_signed_counterexample :
  MaskBuilder_ok [signed_kind_field] = true /\
  record_opcode negative_kind_record = opcode_value scenario_op /\
  has_type (type signed_kind_field) (-1) = true /\
  record_value negative_kind_record signed_kind_field = -1 /\
  Test (For scenario_op [signed_kind_field] [-1]) negative_kind_record = false.
Proof. repeat split; reflexivity. Qed.

(** C7 (amended): a mask built over the fields [Sub] alone, with the opcode of
    the record and the values the record holds in those fields, when these
    values are non-negative (as every value of an unsigned field type is),
    tests true on the record, and on every other record with the same opcode
    byte and the same bytes in the fields of [Sub], whatever it holds
    elsewhere. *)
Theorem narrowing_ignores_excluded_nonneg Op Sub args R :
  MaskBuilder_ok Sub = true ->
  record_opcode R = opcode_value Op ->
  Forall2 (fun F v => record_value R F = v /\ 0 <= v) Sub args ->
  Test (For Op Sub args) R = true /\
  forall R' : Operation,
    record_opcode R' = record_opcode R ->
    (forall F, In F Sub -> record_field R' F = record_field R F) ->
    Test (For Op Sub args) R' = true.
Proof.
  intros Hok Hop Hargs.
  apply narrowing_unsigned_read; [assumption|assumption|].
  clear - Hargs. induction Hargs as [|F v Sub args [HF Hv] _ IH]; constructor;
    [now apply record_value_nonneg|assumption].
Qed.

Lemma narrowing_ignores_excluded_nonneg_witness :
  MaskBuilder_ok [signed_kind_field] = true /\
  record_opcode scenario_word32 = opcode_value scenario_op /\
  Forall2 (fun F v => record_value scenario_word32 F = v /\ 0 <= v)
          [signed_kind_field] [0] /\
  Test (For scenario_op [signed_kind_field] [0]) scenario_word32 = true /\
  Test (For scenario_op [signed_kind_field] [0]) scenario_word64 = true.
Proof.
  assert (Forall2 (fun F v => record_value scenario_word32 F = v /\ 0 <= v)
                  [signed_kind_field] [0]) as Hargs.
  { repeat constructor. discriminate. }
  destruct (narrowing_ignores_excluded_nonneg scenario_op [signed_kind_field] [0]
              scenario_word32 eq_refl eq_refl Hargs) as [Hself Hother].
  split; [reflexivity|]. split; [reflexivity|]. split; [exact Hargs|].
  split; [exact Hself|].
  apply Hother; [reflexivity|].
  intros F [<-|[]]. reflexivity.
Defined.

(** ** The Shape Mask invariant *)

Lemma EncodeValue_uint64 Op Fields args :
  Z.land (EncodeValue Op Fields args) (Z.ones 64) = EncodeValue Op Fields args.
Proof.
  rewrite EncodeValue_lor, Z.land_lor_distr_l. f_equal.
  - unfold EncodeBaseValue. now rewrite to_uint64_land, <- Z.land_assoc, Z.land_diag.
  - induction (combine Fields args) as [|Fa l IH]; simpl; [reflexivity|].
    rewrite Z.land_lor_distr_l, IH. f_equal.
    unfold EncodeFieldValue, shl64.
    now rewrite to_uint64_land, <- Z.land_assoc, Z.land_diag.
Qed.

(** C3: when every value is within the range of its field's byte width, the
    pattern of the Shape Mask has no bit outside the selector mask:
    [EncodeValue(values...) & ~BuildMask() == 0]. *)
Theorem pattern_within_mask Op Fields args :
  MaskBuilder_ok Fields = true ->
  all_fit Fields args = true ->
  Z.land (value (For Op Fields args)) (not64 (mask (For Op Fields args))) = 0.
Proof.
  intros Hok Hfit. cbn [For value mask].
  pose proof (covered_lor_all _ (segments_covered Op Fields args Hok Hfit)) as H.
  rewrite <- EncodeValue_segments in H.
  rewrite <- (BuildMask_segments Op Fields args (all_fit_length _ _ Hfit)) in H.
  pose proof (EncodeValue_uint64 Op Fields args) as H64.
  unfold not64. change (to_uint64 (-1)) with (Z.ones 64).
  apply Z.bits_inj'; intros i _.
  bit_of H i. bit_of H64 i. rewrite Z.land_spec, Z.lxor_spec, Z.bits_0.
  destruct (Z.testbit (EncodeValue Op Fields args) i),
    (Z.testbit (BuildMask Fields) i), (Z.testbit (Z.ones 64) i);
    simpl in *; try reflexivity; congruence.
Qed.

Lemma pattern_within_mask_witness :
  MaskBuilder_ok [kind_field; rep_field] = true /\
  all_fit [kind_field; rep_field] [3; 1] = true /\
  Z.land (value (For scenario_op [kind_field; rep_field] [3; 1]))
         (not64 (mask (For scenario_op [kind_field; rep_field] [3; 1]))) = 0.
Proof.
  split; [reflexivity|]. split; [reflexivity|].
  apply (pattern_within_mask scenario_op [kind_field; rep_field] [3; 1]);
    reflexivity.
Defined.

(** ** Structure of the selector mask *)

(** C4: for field descriptors with [size < 8] and [offset + size <= 8],
    [BuildMask] is the OR of [0xFF] and one contiguous run of one-bits per
    field, and its low byte is [0xFF]. *)
Theorem BuildMask_structure Fields :
  Forall (fun F => (size F < 8)%N /\ (offset F + size F <= 8)%N) Fields ->
  BuildMask Fields = selector_mask_spec Fields /\
  Z.land (BuildMask Fields) 0xFF = 0xFF.
Proof.
  intros Hok.
  assert (BuildMask Fields = selector_mask_spec Fields) as Heq.
  { rewrite BuildMask_lor. unfold selector_mask_spec.
    change BuildBaseMask with 0xFF. f_equal. f_equal.
    apply map_ext_in. intros F HF.
    rewrite Forall_forall in Hok. destruct (Hok F HF) as [Hs Ho].
    rewrite BuildFieldMask_run.
    - unfold field_ones, field_shift, kBitsPerByte. f_equal; f_equal; lia.
    - unfold BuildFieldMask_ok, sizeof_uint64_t.
      apply andb_true_iff. split; [now apply N.ltb_lt|now apply N.leb_le]. }
  split; [assumption|].
  rewrite Heq. unfold selector_mask_spec.
  change 0xFF with (Z.ones 8). Z.bitblast.
Qed.

Lemma BuildMask_structure_witness :
  Forall (fun F => (size F < 8)%N /\ (offset F + size F <= 8)%N)
         [kind_field; rep_field] /\
  BuildMask [kind_field; rep_field] = selector_mask_spec [kind_field; rep_field] /\
  Z.land (BuildMask [kind_field; rep_field]) 0xFF = 0xFF.
Proof.
  assert (Forall (fun F => (size F < 8)%N /\ (offset F + size F <= 8)%N)
                 [kind_field; rep_field]) as H.
  { repeat constructor; vm_compute; congruence. }
  split; [exact H|]. apply (BuildMask_structure [kind_field; rep_field] H).
Defined.

(** ** Order independence *)

(** C5: two builders over the same operation type whose (field, value)
    bindings are a permutation of one another have the same selector mask and
    the same pattern. *)
Theorem order_independence Op Fields Fields' args args' :
  length args = length Fields ->
  length args' = length Fields' ->
  Permutation (combine Fields args) (combine Fields' args') ->
  BuildMask Fields = BuildMask Fields' /\
  EncodeValue Op Fields args = EncodeValue Op Fields' args'.
Proof.
  intros Hlen Hlen' Hperm. split.
  - rewrite !BuildMask_lor. f_equal. apply lor_all_perm.
    rewrite <- (map_fst_combine Fields args Hlen).
    rewrite <- (map_fst_combine Fields' args' Hlen').
    rewrite !map_map. now apply Permutation_map.
  - rewrite !EncodeValue_lor. f_equal. apply lor_all_perm.
    now apply Permutation_map.
Qed.

Lemma order_independence_witness :
  Permutation (combine [kind_field; rep_field] [3; 1])
              (combine [rep_field; kind_field] [1; 3]) /\
  BuildMask [kind_field; rep_field] = BuildMask [rep_field; kind_field] /\
  EncodeValue scenario_op [kind_field; rep_field] [3; 1] =
  EncodeValue scenario_op [rep_field; kind_field] [1; 3].
Proof.
  assert (Permutation (combine [kind_field; rep_field] [3; 1])
                      (combine [rep_field; kind_field] [1; 3])) as H
    by apply perm_swap.
  split; [exact H|].
  apply (order_independence scenario_op [kind_field; rep_field]
           [rep_field; kind_field] [3; 1] [1; 3] eq_refl eq_refl H).
Defined.

(** ** Width correctness *)

(** C6: a field of byte width [w] with [1 <= w < 8] at offset [o] with
    [o + w <= 8] round-trips every [v] in [0, 2^(8w) - 1]: extracting the
    field's bytes from the encoded value gives [v] back. *)
Theorem width_round_trip (F : OpMaskField) (v : Z) :
  (1 <= size F < 8)%N ->
  (offset F + size F <= 8)%N ->
  0 <= v <= 2 ^ (8 * Z.of_N (size F)) - 1 ->
  Z.land (shr64 (EncodeFieldValue F v) (offset F * kBitsPerByte))
         (Z.ones (8 * Z.of_N (size F))) = v.
Proof.
  intros [_ Hs] Ho Hv.
  assert (BuildFieldMask_ok F = true) as Hok.
  { unfold BuildFieldMask_ok, sizeof_uint64_t.
    apply andb_true_iff. split; [now apply N.ltb_lt|now apply N.leb_le]. }
  assert (fits F v = true) as Hfit.
  { unfold fits, kBitsPerByte. apply andb_true_iff.
    replace (Z.of_N (size F * 8)) with (8 * Z.of_N (size F)) by lia.
    split; [apply Z.leb_le|apply Z.ltb_lt]; lia. }
  rewrite EncodeFieldValue_shift by assumption.
  rewrite <- (fits_land F v Hfit) at 2.
  unfold shr64, field_shift, field_ones, kBitsPerByte.
  Z.bitblast.
Qed.

Lemma width_round_trip_witness :
  (1 <= size {| type := uint16_t; offset := 5 |} < 8)%N /\
  (offset {| type := uint16_t; offset := 5 |}
   + size {| type := uint16_t; offset := 5 |} <= 8)%N /\
  0 <= 0xBEEF <= 2 ^ (8 * Z.of_N (size {| type := uint16_t; offset := 5 |})) - 1 /\
  Z.land (shr64 (EncodeFieldValue {| type := uint16_t; offset := 5 |} 0xBEEF)
                (offset {| type := uint16_t; offset := 5 |} * kBitsPerByte))
         (Z.ones (8 * Z.of_N (size {| type := uint16_t; offset := 5 |}))) = 0xBEEF.
Proof.
  assert ((1 <= size {| type := uint16_t; offset := 5 |} < 8)%N) as H1
    by (vm_compute; split; congruence).
  assert ((offset {| type := uint16_t; offset := 5 |}
           + size {| type := uint16_t; offset := 5 |} <= 8)%N) as H2
    by (vm_compute; congruence).
  assert (0 <= 0xBEEF <= 2 ^ (8 * Z.of_N (size {| type := uint16_t; offset := 5 |})) - 1)
    as H3 by (vm_compute; split; congruence).
  split; [exact H1|]. split; [exact H2|]. split; [exact H3|].
  apply (width_round_trip {| type := uint16_t; offset := 5 |} 0xBEEF H1 H2 H3).
Defined.

(** ** Pattern encoding *)

(** C2, as stated, fails for a field of a signed type: [encode_for_mask] is a
    plain [static_cast<uint64_t>], so the [int8_t] value -1 at offset 1 is
    sign-extended and shifted without being masked, and sets every bit from 8
    to 63; the masked encoding would set bits 8 to 15 only. *)
Lemma EncodeValue_unmasked_counterexample :
  MaskBuilder_ok [signed_kind_field] = true /\
  has_type (type signed_kind_field) (-1) = true /\
  EncodeValue scenario_op [signed_kind_field] [-1] = 0xFFFFFFFFFFFFFF02 /\
  EncodeValue_masked scenario_op [signed_kind_field] [-1] = 0xFF02 /\
  EncodeValue scenario_op [signed_kind_field] [-1] <>
  EncodeValue_masked scenario_op [signed_kind_field] [-1] /\
  ~ in_byte_window signed_kind_field (EncodeFieldValue signed_kind_field (-1)).
Proof.
  repeat split; try reflexivity.
  - vm_compute. discriminate.
  - intros H. specialize (H 16 eq_refl). vm_compute in H.
    destruct H as [_ H]. discriminate.
Qed.

Lemma unsigned_fits (F : OpMaskField) (v : Z) :
  is_signed (type F) = false -> has_type (type F) v = true -> fits F v = true.
Proof. unfold has_type, fits, size. now intros ->. Qed.

Lemma EncodeFieldValue_window (F : OpMaskField) (v : Z) :
  fits F v = true -> in_byte_window F (EncodeFieldValue F v).
Proof.
  intros Hv i Hi. apply fits_inv in Hv.
  unfold EncodeFieldValue, encode_for_mask, shl64 in Hi.
  rewrite !to_uint64_land, Z.land_spec in Hi.
  apply andb_true_iff in Hi as [Hi _].
  destruct (Z_lt_le_dec i 0) as [Hneg|Hpos];
    [rewrite Z.testbit_neg_r in Hi by assumption; discriminate|].
  destruct (Z_lt_le_dec i (Z.of_N (offset F * kBitsPerByte))) as [Hlow|Hhigh];
    [rewrite Z.shiftl_spec_low in Hi by assumption; discriminate|].
  rewrite Z.shiftl_spec, Z.land_spec in Hi by assumption.
  apply andb_true_iff in Hi as [Hi _].
  destruct (Z_lt_le_dec (i - Z.of_N (offset F * kBitsPerByte))
                        (Z.of_N (size F * kBitsPerByte))) as [Hin|Hout].
  - unfold kBitsPerByte in *. lia.
  - rewrite (testbit_above v _ _ Hv Hout) in Hi. discriminate.
Qed.

Lemma EncodeFieldValue_masked_eq (F : OpMaskField) (v : Z) :
  fits F v = true -> EncodeFieldValue_masked F v = EncodeFieldValue F v.
Proof.
  intros Hv. unfold EncodeFieldValue_masked, EncodeFieldValue. f_equal.
  unfold encode_for_mask. rewrite to_uint64_land.
  rewrite <- Z.land_assoc, (Z.land_comm (Z.ones 64)), Z.land_assoc.
  now rewrite (fits_land F v Hv).
Qed.

Lemma EncodeFieldValue_testbit (F : OpMaskField) (v i : Z) :
  Z.of_N (offset F * kBitsPerByte) <= i < 64 ->
  Z.testbit (EncodeFieldValue F v) i =
  Z.testbit (to_uint64 v) (i - Z.of_N (offset F * kBitsPerByte)).
Proof.
  intros [Hlo Hhi]. unfold EncodeFieldValue, encode_for_mask, shl64.
  rewrite to_uint64_land, Z.land_spec, Z.shiftl_spec by lia.
  rewrite Z.ones_spec_low by lia. apply andb_true_r.
Qed.

(** C2 (amended): for every argument tuple, [EncodeValue] OR-combines the
    opcode constant with each value converted by [static_cast<uint64_t>] and
    shifted left by its field's byte offset on [uint64_t]; no masking to the
    field's width is applied, so every bit of the converted value, also one
    above that width, lands in the pattern [8 * offset] positions higher
    unless it is shifted past bit 63.  When every value lies in
    [0, 2^(8*size) - 1] for its field (as every value of an unsigned field
    type does), this is the masked encoding, and no bit of an encoded value
    lands outside its field's byte window. *)
Theorem EncodeValue_shifts_unmasked Op Fields args :
  EncodeValue Op Fields args =
    Z.lor (to_uint64 (opcode_value Op))
          (lor_all (map (fun Fa => shl64 (to_uint64 (snd Fa))
                                         (offset (fst Fa) * kBitsPerByte))
                        (combine Fields args))) /\
  (forall (F : OpMaskField) (v i : Z),
      Z.of_N (offset F * kBitsPerByte) <= i < 64 ->
      Z.testbit (EncodeFieldValue F v) i =
      Z.testbit (to_uint64 v) (i - Z.of_N (offset F * kBitsPerByte))) /\
  (all_fit Fields args = true ->
   EncodeValue Op Fields args = EncodeValue_masked Op Fields args /\
   Forall (fun Fa => in_byte_window (fst Fa) (EncodeFieldValue (fst Fa) (snd Fa)))
          (combine Fields args)).
Proof.
  split; [apply EncodeValue_lor|].
  split; [apply EncodeFieldValue_testbit|].
  intros Hfit. apply all_fit_inv in Hfit.
  split.
  - rewrite EncodeValue_lor. unfold EncodeValue_masked. rewrite fold_left_lor.
    f_equal. f_equal.
    induction Hfit as [|F v Fields args Hv _ IH]; simpl; [reflexivity|].
    now rewrite IH, EncodeFieldValue_masked_eq.
  - induction Hfit as [|F v Fields args Hv _ IH]; simpl; constructor;
      [now apply EncodeFieldValue_window|assumption].
Qed.

Lemma EncodeValue_shifts_unmasked_witness :
  all_fit [kind_field; rep_field] [3; 1] = true /\
  8 <= 20 < 64 /\
  Z.testbit (EncodeFieldValue signed_kind_field (-1)) 20 =
  Z.testbit (to_uint64 (-1)) (20 - 8) /\
  EncodeValue scenario_op [kind_field; rep_field] [3; 1] =
  EncodeValue_masked scenario_op [kind_field; rep_field] [3; 1].
Proof.
  destruct (EncodeValue_shifts_unmasked scenario_op [kind_field; rep_field] [3; 1])
    as [_ [Hbits Hfit]].
  assert (8 <= 20 < 64) as Hrange by lia.
  split; [reflexivity|]. split; [exact Hrange|].
  split; [exact (Hbits signed_kind_field (-1) 20 Hrange)|].
  destruct (Hfit eq_refl) as [Hmasked _]. exact Hmasked.
Defined.

(** ** The empty field list *)

(** C9: a builder without field descriptors has selector mask [0xFF] and
    pattern the opcode constant, and its [Test] compares the opcode byte of
    the record with the opcode of [Op], nothing else. *)
Theorem empty_field_list (Op : Opcode) :
  BuildMask [] = 0xFF /\
  EncodeValue Op [] [] = opcode_value Op /\
  forall R : Operation,
    Test (For Op [] []) R = (record_opcode R =? opcode_value Op).
Proof.
  split; [reflexivity|].
  split; [apply EncodeBaseValue_value|].
  intros R. unfold Test, For. cbn [mask value].
  change (BuildMask []) with (Z.ones 8).
  change (EncodeValue Op [] []) with (EncodeBaseValue Op).
  now rewrite EncodeBaseValue_value, record_opcode_word.
Qed.

(** ** Mutual exclusivity *)

(** C10, as stated, fails for a field descriptor at offset 0 (such as the
    descriptor of the [opcode] member itself): a single field is trivially
    pairwise disjoint, but it shares byte 0 with the opcode constant that
    [EncodeValue] ORs in, so with opcode 2 the values 0 and 2 are both
    encoded as the pattern 2 and the two masks accept the same record. *)
Lemma exclusive_offset0_counterexample :
  MaskBuilder_ok [opcode_alias_field] = true /\
  pairwise_disjoint [opcode_alias_field] = true /\
  all_fit [opcode_alias_field] [0] = true /\
  all_fit [opcode_alias_field] [2] = true /\
  [0] <> [2] /\
  EncodeValue scenario_op [opcode_alias_field] [0] =
  EncodeValue scenario_op [opcode_alias_field] [2] /\
  Test (For scenario_op [opcode_alias_field] [0]) scenario_word32 = true /\
  Test (For scenario_op [opcode_alias_field] [2]) scenario_word32 = true.
Proof. repeat split; try reflexivity. discriminate. Qed.

(** With a disjoint layout, every in-range value can be read back from the
    pattern. *)
Lemma EncodeValue_extract Op Fields args :
  MaskBuilder_ok Fields = true ->
  disjoint_layout Fields = true ->
  all_fit Fields args = true ->
  Forall2 (fun F v => extract_field F (EncodeValue Op Fields args) = v) Fields args.
Proof.
  intros Hok Hd Hfit.
  apply (agrees_segments Op Fields args (EncodeValue Op Fields args) Hok Hfit).
  apply masked_agrees_all.
  - now apply segments_covered.
  - now apply segments_apart.
  - rewrite (EncodeValue_segments Op Fields args).
    apply covered_lor_all. now apply segments_covered.
Qed.

Lemma Forall2_functional {A B : Type} (P : A -> B -> Prop) (l : list A)
  (m m' : list B) :
  (forall a b b', P a b -> P a b' -> b = b') ->
  Forall2 P l m -> Forall2 P l m' -> m = m'.
Proof.
  intros HP H. revert m'.
  induction H as [|a b l m Hab _ IH]; intros m' H'; inversion H'; subst;
    [reflexivity|].
  f_equal; [now apply (HP a)|now apply IH].
Qed.

(** C10 (amended): when the field descriptors and the opcode byte occupy
    pairwise disjoint byte ranges, two tuples of in-range values that differ
    give different patterns, and no record satisfies the [Test] of both
    Shape Masks. *)
Theorem masks_mutually_exclusive Op Fields args args' :
  MaskBuilder_ok Fields = true ->
  disjoint_layout Fields = true ->
  all_fit Fields args = true ->
  all_fit Fields args' = true ->
  args <> args' ->
  EncodeValue Op Fields args <> EncodeValue Op Fields args' /\
  forall R : Operation,
    ~ (Test (For Op Fields args) R = true /\ Test (For Op Fields args') R = true).
Proof.
  intros Hok Hd Hfit Hfit' Hne.
  assert (EncodeValue Op Fields args <> EncodeValue Op Fields args') as Hinj.
  { intros Heq. apply Hne.
    pose proof (EncodeValue_extract Op Fields args Hok Hd Hfit) as H.
    pose proof (EncodeValue_extract Op Fields args' Hok Hd Hfit') as H'.
    rewrite <- Heq in H'.
    apply (Forall2_functional _ Fields args args' (fun F v v' Hv Hv' =>
             eq_trans (eq_sym Hv) Hv') H H'). }
  split; [assumption|].
  intros R [H1 H2]. apply Hinj.
  unfold Test, For in H1, H2. cbn [mask value] in H1, H2.
  apply Z.eqb_eq in H1, H2. congruence.
Qed.

Lemma masks_mutually_exclusive_witness :
  MaskBuilder_ok [kind_field; rep_field] = true /\
  disjoint_layout [kind_field; rep_field] = true /\
  all_fit [kind_field; rep_field] [0; 0] = true /\
  all_fit [kind_field; rep_field] [0; 1] = true /\
  [0; 0] <> [0; 1] /\
  EncodeValue scenario_op [kind_field; rep_field] [0; 0] <>
  EncodeValue scenario_op [kind_field; rep_field] [0; 1].
Proof.
  assert ([0; 0] <> [0; 1]) as Hne by discriminate.
  split; [reflexivity|]. split; [reflexivity|]. split; [reflexivity|].
  split; [reflexivity|]. split; [exact Hne|].
  apply (masks_mutually_exclusive scenario_op [kind_field; rep_field]
           [0; 0] [0; 1] eq_refl eq_refl eq_refl eq_refl Hne).
Defined.

(** * Further properties of the header *)

(** ** What the opcode byte of a mask guarantees *)

Lemma BuildMask_low_byte (Fields : list OpMaskField) :
  Z.land (BuildMask Fields) (Z.ones 8) = Z.ones 8.
Proof.
  rewrite BuildMask_lor, BuildBaseMask_ones.
  apply Z.bits_inj'; intros i _.
  rewrite !Z.land_spec, Z.lor_spec.
  destruct (Z.testbit (Z.ones 8) i); [reflexivity|apply andb_false_r].
Qed.

Lemma EncodeFieldValue_low_byte (F : OpMaskField) (v : Z) :
  clear_of_opcode F = true -> Z.land (EncodeFieldValue F v) (Z.ones 8) = 0.
Proof.
  unfold clear_of_opcode. intros H. apply N.leb_le in H.
  unfold EncodeFieldValue, shl64, kBitsPerByte. rewrite to_uint64_land.
  bitblast_low.
Qed.

Lemma EncodeValue_low_byte Op Fields args :
  forallb clear_of_opcode Fields = true ->
  Z.land (EncodeValue Op Fields args) (Z.ones 8) = opcode_value Op.
Proof.
  intros Hclear. rewrite EncodeValue_lor, Z.land_lor_distr_l.
  rewrite EncodeBaseValue_value, opcode_value_land.
  replace (Z.land (lor_all _) (Z.ones 8)) with 0; [apply Z.lor_0_r|].
  symmetry. revert args Hclear.
  induction Fields as [|F Fields IH]; intros [|a args] Hclear; simpl in *;
    try reflexivity.
  apply andb_true_iff in Hclear as [HF Hclear].
  rewrite Z.land_lor_distr_l, (EncodeFieldValue_low_byte F a HF), (IH args Hclear).
  reflexivity.
Qed.

Lemma Test_opcode Op Fields args R :
  forallb clear_of_opcode Fields = true ->
  Test (For Op Fields args) R = true ->
  record_opcode R = opcode_value Op.
Proof.
  intros Hclear HT. unfold Test, For in HT. cbn [mask value] in HT.
  apply Z.eqb_eq in HT.
  rewrite record_opcode_word, <- (EncodeValue_low_byte Op Fields args Hclear), <- HT.
  now rewrite <- Z.land_assoc, BuildMask_low_byte.
Qed.

Lemma opcode_value_inj (Op Op' : Opcode) : opcode_value Op = opcode_value Op' -> Op = Op'.
Proof.
  unfold opcode_value. intros H. apply N2Z.inj in H.
  pose proof (Byte.of_to_N Op) as H1. pose proof (Byte.of_to_N Op') as H2.
  rewrite H in H1. congruence.
Qed.

(** X1: when no field descriptor touches byte 0, the low byte of the pattern
    is the opcode constant whatever the values bound to the fields; so a
    record that passes [Test] of a mask of [Op] has the opcode of [Op] in its
    opcode byte, and [TryCast] hands out only such records. *)
Theorem Test_implies_opcode Op Fields args R :
  forallb clear_of_opcode Fields = true ->
  Z.land (EncodeValue Op Fields args) 0xFF = opcode_value Op /\
  (Test (For Op Fields args) R = true -> record_opcode R = opcode_value Op) /\
  (forall R', TryCast (For Op Fields args) R = Some R' ->
              R' = R /\ record_opcode R' = opcode_value Op).
Proof.
  intros Hclear. split; [now apply EncodeValue_low_byte|].
  split; [now apply Test_opcode|].
  intros R'. unfold TryCast.
  destruct (Test (For Op Fields args) R) eqn:HT; [|discriminate].
  intros H. injection H as <-. split; [reflexivity|now apply (Test_opcode Op Fields args)].
Qed.

Lemma Test_implies_opcode_witness :
  forallb clear_of_opcode [kind_field; rep_field] = true /\
  Z.land (EncodeValue scenario_op [kind_field; rep_field] [7; 9]) 0xFF =
  opcode_value scenario_op /\
  (Test (For scenario_op [kind_field; rep_field] [7; 9]) scenario_word32 = true ->
   record_opcode scenario_word32 = opcode_value scenario_op).
Proof.
  split; [reflexivity|].
  destruct (Test_implies_opcode scenario_op [kind_field; rep_field] [7; 9]
              scenario_word32 eq_refl) as [Hlow [Hop _]].
  split; [exact Hlow|exact Hop].
Defined.

(** X2: masks of two different operation types have different patterns and
    never accept the same record, whatever their fields and values, as long
    as no field descriptor touches byte 0. *)
Theorem different_opcodes_exclusive Op Op' Fields Fields' args args' R :
  Op <> Op' ->
  forallb clear_of_opcode Fields = true ->
  forallb clear_of_opcode Fields' = true ->
  EncodeValue Op Fields args <> EncodeValue Op' Fields' args' /\
  ~ (Test (For Op Fields args) R = true /\ Test (For Op' Fields' args') R = true).
Proof.
  intros Hne Hc Hc'. split.
  - intros Heq. apply Hne, opcode_value_inj.
    rewrite <- (EncodeValue_low_byte Op Fields args Hc), Heq.
    now apply EncodeValue_low_byte.
  - intros [H1 H2]. apply Hne, opcode_value_inj.
    rewrite <- (Test_opcode Op Fields args R Hc H1).
    now apply (Test_opcode Op' Fields' args' R).
Qed.

Lemma different_opcodes_exclusive_witness :
  scenario_op <> other_op /\
  forallb clear_of_opcode [kind_field; rep_field] = true /\
  forallb clear_of_opcode [kind_field] = true /\
  ~ (Test (For scenario_op [kind_field; rep_field] [0; 0]) scenario_word32 = true /\
     Test (For other_op [kind_field] [0]) scenario_word32 = true).
Proof.
  assert (scenario_op <> other_op) as Hne by discriminate.
  split; [exact Hne|]. split; [reflexivity|]. split; [reflexivity|].
  apply (different_opcodes_exclusive scenario_op other_op
           [kind_field; rep_field] [kind_field] [0; 0] [0] scenario_word32
           Hne eq_refl eq_refl).
Defined.

(** ** Composing and narrowing masks *)

Lemma lor_all_app (l l' : list Z) :
  lor_all (l ++ l') = Z.lor (lor_all l) (lor_all l').
Proof.
  induction l as [|x l IH]; simpl; [reflexivity|].
  now rewrite IH, Z.lor_assoc.
Qed.

Lemma combine_app_same {A B : Type} (l l' : list A) (m m' : list B) :
  length m = length l ->
  combine (l ++ l') (m ++ m') = combine l m ++ combine l' m'.
Proof.
  revert m. induction l as [|x l IH]; intros [|y m] H; simpl in *;
    try discriminate; [reflexivity|].
  f_equal. apply IH. lia.
Qed.

(** X3: declaring two groups of fields in one builder ORs the masks and the
    patterns of the two groups. *)
Theorem builder_append Op Fs Gs args args' :
  length args = length Fs ->
  BuildMask (Fs ++ Gs) = Z.lor (BuildMask Fs) (BuildMask Gs) /\
  EncodeValue Op (Fs ++ Gs) (args ++ args') =
  Z.lor (EncodeValue Op Fs args) (EncodeValue Op Gs args').
Proof.
  intros Hlen. split.
  - rewrite !BuildMask_lor, map_app, lor_all_app.
    apply Z.bits_inj'; intros i _. rewrite !Z.lor_spec.
    destruct (Z.testbit BuildBaseMask i); simpl; [reflexivity|].
    reflexivity.
  - rewrite !EncodeValue_lor, (combine_app_same Fs Gs args args' Hlen),
      map_app, lor_all_app.
    apply Z.bits_inj'; intros i _. rewrite !Z.lor_spec.
    destruct (Z.testbit (EncodeBaseValue Op) i); simpl; [reflexivity|].
    reflexivity.
Qed.

Lemma builder_append_witness :
  length [3] = length [kind_field] /\
  BuildMask ([kind_field] ++ [rep_field]) =
  Z.lor (BuildMask [kind_field]) (BuildMask [rep_field]) /\
  EncodeValue scenario_op ([kind_field] ++ [rep_field]) ([3] ++ [1]) =
  Z.lor (EncodeValue scenario_op [kind_field] [3])
        (EncodeValue scenario_op [rep_field] [1]).
Proof.
  split; [reflexivity|].
  apply (builder_append scenario_op [kind_field] [rep_field] [3] [1] eq_refl).
Defined.

(** With a disjoint layout and in-range values, [Test] holds exactly when the
    leading word agrees with every segment of the mask. *)
Lemma Test_agrees_iff Op Fields args R :
  MaskBuilder_ok Fields = true ->
  all_fit Fields args = true ->
  disjoint_layout Fields = true ->
  Test (For Op Fields args) R = true <->
  Forall (agrees (leading_word R)) (segments Op Fields args).
Proof.
  intros Hok Hfit Hd.
  rewrite (Test_true_iff Op Fields args R (all_fit_length _ _ Hfit)).
  split.
  - apply masked_agrees_all.
    + now apply segments_covered.
    + now apply segments_apart.
  - apply agrees_all_masked.
Qed.

Lemma Test_of_agrees Op Fields args R :
  length args = length Fields ->
  Forall (agrees (leading_word R)) (segments Op Fields args) ->
  Test (For Op Fields args) R = true.
Proof.
  intros Hlen H. apply (Test_true_iff Op Fields args R Hlen).
  now apply agrees_all_masked.
Qed.

Lemma pairwise_disjoint_app (Fs Gs : list OpMaskField) :
  pairwise_disjoint (Fs ++ Gs) = true ->
  pairwise_disjoint Fs = true /\ pairwise_disjoint Gs = true.
Proof.
  induction Fs as [|F Fs IH]; simpl; intros H; [now split|].
  apply andb_true_iff in H as [H1 H2].
  rewrite forallb_app in H1. apply andb_true_iff in H1 as [H1 _].
  destruct (IH H2) as [H3 H4]. split; [|assumption].
  now rewrite H1, H3.
Qed.

Lemma disjoint_layout_app (Fs Gs : list OpMaskField) :
  disjoint_layout (Fs ++ Gs) = true ->
  disjoint_layout Fs = true /\ disjoint_layout Gs = true.
Proof.
  unfold disjoint_layout. intros H. apply andb_true_iff in H as [H1 H2].
  rewrite forallb_app in H1. apply andb_true_iff in H1 as [H1 H1'].
  apply pairwise_disjoint_app in H2 as [H2 H2'].
  now rewrite H1, H1', H2, H2'.
Qed.

Lemma all_fit_app (Fs Gs : list OpMaskField) (args args' : list Z) :
  all_fit Fs args = true -> all_fit Gs args' = true ->
  all_fit (Fs ++ Gs) (args ++ args') = true.
Proof.
  intros H H'. apply all_fit_intro. apply Forall2_app; now apply all_fit_inv.
Qed.

(** X4: with a disjoint layout and in-range values, the mask over two groups
    of fields accepts a record exactly when the mask over each group does. *)
Theorem Test_append Op Fs Gs args args' R :
  MaskBuilder_ok (Fs ++ Gs) = true ->
  disjoint_layout (Fs ++ Gs) = true ->
  all_fit Fs args = true ->
  all_fit Gs args' = true ->
  Test (For Op (Fs ++ Gs) (args ++ args')) R =
  Test (For Op Fs args) R && Test (For Op Gs args') R.
Proof.
  intros Hok Hd Hfit Hfit'.
  pose proof (all_fit_app Fs Gs args args' Hfit Hfit') as Hfit2.
  destruct (disjoint_layout_app Fs Gs Hd) as [HdF HdG].
  assert (MaskBuilder_ok Fs = true /\ MaskBuilder_ok Gs = true) as [HokF HokG].
  { unfold MaskBuilder_ok in *. rewrite forallb_app in Hok.
    now apply andb_true_iff in Hok. }
  apply eq_true_iff_eq. rewrite andb_true_iff.
  rewrite (Test_agrees_iff Op _ _ R Hok Hfit2 Hd),
    (Test_agrees_iff Op _ _ R HokF Hfit HdF),
    (Test_agrees_iff Op _ _ R HokG Hfit' HdG).
  unfold segments.
  rewrite (combine_app_same Fs Gs args args' (all_fit_length _ _ Hfit)), map_app.
  rewrite !Forall_cons_iff, Forall_app. tauto.
Qed.

Lemma Test_append_witness :
  MaskBuilder_ok ([kind_field] ++ [rep_field]) = true /\
  disjoint_layout ([kind_field] ++ [rep_field]) = true /\
  all_fit [kind_field] [0] = true /\
  all_fit [rep_field] [0] = true /\
  Test (For scenario_op ([kind_field] ++ [rep_field]) ([0] ++ [0])) scenario_word64 =
  Test (For scenario_op [kind_field] [0]) scenario_word64 &&
  Test (For scenario_op [rep_field] [0]) scenario_word64.
Proof.
  split; [reflexivity|]. split; [reflexivity|]. split; [reflexivity|].
  split; [reflexivity|].
  apply (Test_append scenario_op [kind_field] [rep_field] [0] [0] scenario_word64
           eq_refl eq_refl eq_refl eq_refl).
Defined.

(** X5: with a disjoint layout and in-range values, a record accepted by a
    mask is accepted by every mask of the same operation whose (field, value)
    bindings are among those of the first. *)
Theorem wider_mask_implies_narrower Op Fields args Sub args' R :
  MaskBuilder_ok Fields = true ->
  all_fit Fields args = true ->
  disjoint_layout Fields = true ->
  length args' = length Sub ->
  incl (combine Sub args') (combine Fields args) ->
  Test (For Op Fields args) R = true ->
  Test (For Op Sub args') R = true.
Proof.
  intros Hok Hfit Hd Hlen Hincl HT.
  apply (Test_agrees_iff Op Fields args R Hok Hfit Hd) in HT.
  apply Test_of_agrees; [assumption|].
  unfold segments in *. inversion HT as [|? ? Hbase Hfields]; subst.
  constructor; [assumption|].
  rewrite Forall_forall in *. intros s Hs.
  apply in_map_iff in Hs as [Fa [<- HFa]].
  apply Hfields, in_map, Hincl, HFa.
Qed.

Lemma wider_mask_implies_narrower_witness :
  MaskBuilder_ok [kind_field; rep_field] = true /\
  all_fit [kind_field; rep_field] [0; 0] = true /\
  disjoint_layout [kind_field; rep_field] = true /\
  incl (combine [rep_field] [0]) (combine [kind_field; rep_field] [0; 0]) /\
  Test (For scenario_op [kind_field; rep_field] [0; 0]) scenario_word32 = true /\
  Test (For scenario_op [rep_field] [0]) scenario_word32 = true.
Proof.
  assert (incl (combine [rep_field] [0]) (combine [kind_field; rep_field] [0; 0]))
    as Hincl.
  { intros x [<-|[]]. right. left. reflexivity. }
  split; [reflexivity|]. split; [reflexivity|]. split; [reflexivity|].
  split; [exact Hincl|]. split; [reflexivity|].
  apply (wider_mask_implies_narrower scenario_op [kind_field; rep_field] [0; 0]
           [rep_field] [0] scenario_word32 eq_refl eq_refl eq_refl eq_refl Hincl
           eq_refl).
Defined.

(** ** What [Test] looks at *)

(** The masked leading word is made of the opcode byte and of the fields. *)
Lemma masked_word_fields (Fields : list OpMaskField) (w : Z) :
  MaskBuilder_ok Fields = true ->
  Z.land w (BuildMask Fields) =
  Z.lor (Z.land w (Z.ones 8))
        (lor_all (map (fun F => Z.shiftl (extract_field F w) (field_shift F)) Fields)).
Proof.
  intros Hok. apply MaskBuilder_ok_inv in Hok.
  rewrite BuildMask_lor, BuildBaseMask_ones, Z.land_lor_distr_r. f_equal.
  induction Hok as [|F Fields HF _ IH]; simpl; [apply Z.land_0_r|].
  now rewrite Z.land_lor_distr_r, IH, land_field_mask.
Qed.

(** X6: [Test] looks at nothing but the opcode byte and the bytes of the
    declared fields: two records that agree there get the same answer from
    every mask of the builder. *)
Theorem Test_reads_selected_bytes_only Op Fields args R R' :
  MaskBuilder_ok Fields = true ->
  record_opcode R = record_opcode R' ->
  (forall F, In F Fields -> record_field R F = record_field R' F) ->
  Test (For Op Fields args) R = Test (For Op Fields args) R'.
Proof.
  intros Hok Hop Hfields. unfold Test, For. cbn [mask value]. f_equal.
  rewrite !(masked_word_fields Fields _ Hok), <- !record_opcode_word, Hop.
  f_equal. f_equal. apply map_ext_in. intros F HF.
  pose proof (MaskBuilder_ok_inv Fields Hok) as Hall.
  rewrite Forall_forall in Hall.
  rewrite <- !(record_field_word _ F (Hall F HF)).
  now rewrite (Hfields F HF).
Qed.

Lemma Test_reads_selected_bytes_only_witness :
  MaskBuilder_ok [kind_field] = true /\
  record_opcode scenario_word32 = record_opcode scenario_word64 /\
  Test (For scenario_op [kind_field] [5]) scenario_word32 =
  Test (For scenario_op [kind_field] [5]) scenario_word64.
Proof.
  split; [reflexivity|]. split; [reflexivity|].
  apply (Test_reads_selected_bytes_only scenario_op [kind_field] [5]
           scenario_word32 scenario_word64 eq_refl eq_refl).
  intros F [<-|[]]. reflexivity.
Defined.

(** ** Reading a pattern back *)

(** X8: with a disjoint layout, the pattern of a Shape Mask determines its
    bindings: its low byte is the opcode constant and each in-range value is
    read back from the bytes of its field. *)
Theorem pattern_round_trip Op Fields args :
  MaskBuilder_ok Fields = true ->
  disjoint_layout Fields = true ->
  all_fit Fields args = true ->
  Z.land (EncodeValue Op Fields args) (Z.ones 8) = opcode_value Op /\
  Forall2 (fun F v => extract_field F (EncodeValue Op Fields args) = v) Fields args.
Proof.
  intros Hok Hd Hfit. split.
  - apply EncodeValue_low_byte. unfold disjoint_layout in Hd.
    now apply andb_true_iff in Hd as [Hd _].
  - now apply EncodeValue_extract.
Qed.

Lemma pattern_round_trip_witness :
  MaskBuilder_ok [kind_field; rep_field] = true /\
  disjoint_layout [kind_field; rep_field] = true /\
  all_fit [kind_field; rep_field] [3; 1] = true /\
  Forall2 (fun F v =>
             extract_field F (EncodeValue scenario_op [kind_field; rep_field] [3; 1]) = v)
          [kind_field; rep_field] [3; 1].
Proof.
  split; [reflexivity|]. split; [reflexivity|]. split; [reflexivity|].
  apply (pattern_round_trip scenario_op [kind_field; rep_field] [3; 1]
           eq_refl eq_refl eq_refl).
Defined.

(** ** Negative values of signed fields *)

Lemma testbit_lor_all_false (l : list Z) (i : Z) :
  Forall (fun x => Z.testbit x i = false) l -> Z.testbit (lor_all l) i = false.
Proof.
  induction 1 as [|x l Hx _ IH]; simpl; [apply Z.bits_0|].
  now rewrite Z.lor_spec, Hx, IH.
Qed.

Lemma testbit_lor_all_true (l : list Z) (x i : Z) :
  In x l -> Z.testbit x i = true -> Z.testbit (lor_all l) i = true.
Proof.
  induction l as [|y l IH]; simpl; [intros []|].
  intros [->|Hin] Hx; rewrite Z.lor_spec.
  - now rewrite Hx.
  - rewrite (IH Hin Hx). apply orb_true_r.
Qed.

(** The two's complement of a negative number above [- 2^k] has every bit
    from [k] on set. *)
Lemma testbit_negative (v k j : Z) :
  - 2 ^ k <= v < 0 -> 0 <= k <= j -> Z.testbit v j = true.
Proof.
  intros [Hlo Hneg] [Hk Hj].
  destruct (Z.eq_dec v (-1)) as [->|Hne]; [apply Z.bits_m1; lia|].
  apply Z.bits_above_log2_neg; [assumption|].
  apply Z.lt_le_trans with (m := k); [|assumption].
  apply Z.log2_lt_pow2; lia.
Qed.

Lemma leaves_top_byte_ok (F : OpMaskField) :
  leaves_top_byte F = true -> BuildFieldMask_ok F = true.
Proof.
  unfold leaves_top_byte, BuildFieldMask_ok, sizeof_uint64_t. intros H.
  apply N.leb_le in H. apply andb_true_iff.
  split; [apply N.ltb_lt|apply N.leb_le]; lia.
Qed.

Lemma BuildMask_top_bit (Fields : list OpMaskField) :
  forallb leaves_top_byte Fields = true -> Z.testbit (BuildMask Fields) 63 = false.
Proof.
  intros H. rewrite BuildMask_lor, Z.lor_spec.
  change (Z.testbit BuildBaseMask 63) with false. rewrite orb_false_l.
  apply testbit_lor_all_false. rewrite Forall_map, Forall_forall.
  rewrite forallb_forall in H. intros F HF. specialize (H F HF).
  rewrite (BuildFieldMask_run F (leaves_top_byte_ok F H)).
  unfold leaves_top_byte in H. apply N.leb_le in H.
  unfold field_shift, field_ones, kBitsPerByte.
  rewrite Z.shiftl_spec by lia. apply Z.ones_spec_high. lia.
Qed.

Lemma EncodeFieldValue_top_bit (F : OpMaskField) (v : Z) :
  leaves_top_byte F = true -> has_type (type F) v = true -> v < 0 ->
  Z.testbit (EncodeFieldValue F v) 63 = true.
Proof.
  unfold leaves_top_byte, has_type. intros H Hty Hneg. apply N.leb_le in H.
  fold (size F) in Hty. unfold kBitsPerByte in Hty.
  destruct (is_signed (type F)).
  2:{ apply andb_true_iff in Hty as [Hty _]. apply Z.leb_le in Hty. lia. }
  apply andb_true_iff in Hty as [Hlo _]. apply Z.leb_le in Hlo.
  assert (1 <= size F)%N as Hsize.
  { destruct (N.eq_dec (size F) 0) as [E|E]; [|lia].
    rewrite E in Hlo. simpl in Hlo. lia. }
  unfold EncodeFieldValue, encode_for_mask, shl64, kBitsPerByte.
  rewrite to_uint64_land, Z.land_spec, Z.shiftl_spec by lia.
  change (Z.testbit (Z.ones 64) 63) with true. rewrite andb_true_r.
  unfold to_uint64. rewrite Z.testbit_mod_pow2 by lia.
  replace (63 - Z.of_N (offset F * 8) <? 64) with true by (symmetry; apply Z.ltb_lt; lia).
  rewrite andb_true_l.
  apply (testbit_negative v (Z.of_N (size F * 8) - 1)); lia.
Qed.

(** X7: a negative value of a signed field is sign-extended over the whole
    word, so when no declared field reaches byte 7 the mask built with such a
    value has a pattern bit outside its selector mask and rejects every
    record. *)
Theorem negative_value_never_matches Op Fields args F v R :
  forallb leaves_top_byte Fields = true ->
  In (F, v) (combine Fields args) ->
  has_type (type F) v = true ->
  v < 0 ->
  Z.testbit (EncodeValue Op Fields args) 63 = true /\
  Z.testbit (BuildMask Fields) 63 = false /\
  Test (For Op Fields args) R = false.
Proof.
  intros Htop Hin Hty Hneg.
  assert (Z.testbit (EncodeValue Op Fields args) 63 = true) as Hpat.
  { rewrite EncodeValue_lor, Z.lor_spec.
    rewrite (testbit_lor_all_true _ (EncodeFieldValue F v) 63).
    - apply orb_true_r.
    - apply (in_map (fun Fa => EncodeFieldValue (fst Fa) (snd Fa)) _ (F, v) Hin).
    - apply EncodeFieldValue_top_bit; [|assumption|assumption].
      rewrite forallb_forall in Htop. apply Htop.
      apply (in_combine_l _ _ _ _ Hin). }
  pose proof (BuildMask_top_bit Fields Htop) as Hmask.
  split; [assumption|]. split; [assumption|].
  unfold Test, For. cbn [mask value]. apply Z.eqb_neq. intros Heq.
  pose proof (f_equal (fun z => Z.testbit z 63) Heq) as Hbit. cbv beta in Hbit.
  rewrite Z.land_spec, Hmask, andb_false_r, Hpat in Hbit. discriminate.
Qed.

Lemma negative_value_never_matches_witness :
  forallb leaves_top_byte [signed_kind_field] = true /\
  In (signed_kind_field, -1) (combine [signed_kind_field] [-1]) /\
  has_type (type signed_kind_field) (-1) = true /\
  -1 < 0 /\
  Test (For scenario_op [signed_kind_field] [-1])
       [Byte.x02; Byte.xff; Byte.x00; Byte.x00; Byte.x00; Byte.x00; Byte.x00; Byte.x00]
  = false.
Proof.
  assert (In (signed_kind_field, -1) (combine [signed_kind_field] [-1])) as Hin
    by (left; reflexivity).
  assert (-1 < 0) as Hneg by reflexivity.
  split; [reflexivity|]. split; [exact Hin|]. split; [reflexivity|].
  split; [exact Hneg|].
  apply (negative_value_never_matches scenario_op [signed_kind_field] [-1]
           signed_kind_field (-1) _ eq_refl Hin eq_refl Hneg).
Defined.

(** ** The masks the header declares *)

Lemma all_fit_bindings (Fields : list OpMaskField) (args : list Z) :
  all_fit Fields args = true ->
  forall Fa, In Fa (combine Fields args) -> fits (fst Fa) (snd Fa) = true.
Proof.
  unfold all_fit. intros H. apply andb_true_iff in H as [_ H].
  now rewrite forallb_forall in H.
Qed.

(** With a disjoint layout and in-range values, [Test] holds exactly when
    the opcode byte and every bound field of the record hold what the mask
    was built with. *)
Lemma Test_bindings_iff Op Fields args R :
  MaskBuilder_ok Fields = true ->
  all_fit Fields args = true ->
  disjoint_layout Fields = true ->
  Test (For Op Fields args) R = true <->
  record_opcode R = opcode_value Op /\
  Forall (fun Fa => record_field R (fst Fa) = snd Fa) (combine Fields args).
Proof.
  intros Hok Hfit Hd.
  rewrite (Test_agrees_iff Op Fields args R Hok Hfit Hd).
  unfold segments. rewrite Forall_cons_iff, agrees_base, <- record_opcode_word.
  apply and_iff_compat_l.
  pose proof (all_fit_bindings Fields args Hfit) as Hb.
  pose proof (MaskBuilder_ok_inv Fields Hok) as Hall. rewrite Forall_forall in Hall.
  rewrite Forall_map, !Forall_forall.
  split; intros H [F v] Hin; specialize (H (F, v) Hin);
    pose proof (Hb (F, v) Hin) as Hv;
    pose proof (Hall F (in_combine_l _ _ _ _ Hin)) as HF; cbn [fst snd] in *.
  - rewrite (record_field_word R F HF). now apply (agrees_field F v _ HF Hv).
  - apply (agrees_field F v _ HF Hv). now rewrite <- (record_field_word R F HF).
Qed.

Lemma single_field_layout (F : OpMaskField) :
  (1 <= offset F)%N -> (offset F + size F <= 8)%N ->
  MaskBuilder_ok [F] = true /\ disjoint_layout [F] = true.
Proof.
  intros H1 H2.
  unfold MaskBuilder_ok, disjoint_layout, OpMaskField_ok, BuildFieldMask_ok,
    clear_of_opcode, sizeof_uint64_t. simpl.
  assert ((offset F + size F <=? 8)%N = true) as -> by (apply N.leb_le; lia).
  assert ((size F <? 8)%N = true) as -> by (apply N.ltb_lt; lia).
  assert ((1 <=? offset F)%N = true) as -> by (apply N.leb_le; lia).
  now split.
Qed.

Lemma small_value_fits (F : OpMaskField) (v : Z) :
  (1 <= size F)%N -> 0 <= v < 256 -> fits F v = true.
Proof.
  intros Hs Hv. unfold fits, kBitsPerByte. apply andb_true_iff.
  split; [apply Z.leb_le; lia|apply Z.ltb_lt].
  apply Z.lt_le_trans with (m := 2 ^ 8); [simpl; lia|].
  apply Z.pow_le_mono_r; lia.
Qed.

(** X9: for every layout that puts the [index] field of a projection after
    byte 0 and within the leading word, [kProjection0] accepts exactly the
    projections whose index field is 0, [kProjection1] exactly those whose
    index field is 1, and no record is accepted by both. *)
Theorem kProjection_masks ProjectionOp index R :
  (1 <= offset index)%N ->
  (1 <= size index)%N ->
  (offset index + size index <= 8)%N ->
  (Test (kProjection0 ProjectionOp index) R = true <->
   record_opcode R = opcode_value ProjectionOp /\ record_field R index = 0) /\
  (Test (kProjection1 ProjectionOp index) R = true <->
   record_opcode R = opcode_value ProjectionOp /\ record_field R index = 1) /\
  ~ (Test (kProjection0 ProjectionOp index) R = true /\
     Test (kProjection1 ProjectionOp index) R = true).
Proof.
  intros Ho Hs Hin.
  destruct (single_field_layout index Ho Hin) as [Hok Hd].
  assert (forall v, 0 <= v < 256 ->
            (Test (For ProjectionOp (ProjectionMask index) [v]) R = true <->
             record_opcode R = opcode_value ProjectionOp /\ record_field R index = v))
    as Hchar.
  { intros v Hv.
    assert (all_fit (ProjectionMask index) [v] = true) as Hfit.
    { unfold all_fit, ProjectionMask. simpl.
      now rewrite (small_value_fits index v Hs Hv). }
    rewrite (Test_bindings_iff ProjectionOp _ _ R Hok Hfit Hd).
    unfold ProjectionMask. simpl. rewrite Forall_cons_iff. simpl.
    split; [intros [H1 [H2 _]]; now split|intros [H1 H2]; repeat split; auto]. }
  unfold kProjection0, kProjection1.
  split; [apply Hchar; lia|]. split; [apply Hchar; lia|].
  intros [H0 H1].
  apply (Hchar 0) in H0; [|lia]. apply (Hchar 1) in H1; [|lia].
  destruct H0 as [_ H0]. destruct H1 as [_ H1]. congruence.
Qed.

Lemma kProjection_masks_witness :
  (1 <= offset {| type := uint16_t; offset := 4 |})%N /\
  (1 <= size {| type := uint16_t; offset := 4 |})%N /\
  (offset {| type := uint16_t; offset := 4 |}
   + size {| type := uint16_t; offset := 4 |} <= 8)%N /\
  ~ (Test (kProjection0 other_op {| type := uint16_t; offset := 4 |})
          scenario_word32 = true /\
     Test (kProjection1 other_op {| type := uint16_t; offset := 4 |})
          scenario_word32 = true).
Proof.
  assert ((1 <= offset {| type := uint16_t; offset := 4 |})%N) as H1
    by (vm_compute; congruence).
  assert ((1 <= size {| type := uint16_t; offset := 4 |})%N) as H2
    by (vm_compute; congruence).
  assert ((offset {| type := uint16_t; offset := 4 |}
           + size {| type := uint16_t; offset := 4 |} <= 8)%N) as H3
    by (vm_compute; congruence).
  split; [exact H1|]. split; [exact H2|]. split; [exact H3|].
  apply (kProjection_masks other_op {| type := uint16_t; offset := 4 |}
           scenario_word32 H1 H2 H3).
Defined.

(** X10: for every layout that keeps [kind] and [rep] of a word binop apart,
    after byte 0 and within the leading word, [kWord32BitwiseAnd] accepts
    exactly the records that [kBitwiseAnd] accepts and whose [rep] field
    holds [Word32]; with a different value for [Word64], no record is
    accepted by both [kWord32BitwiseAnd] and [kWord64BitwiseAnd]. *)
Theorem kWord32BitwiseAnd_refines_kBitwiseAnd
  WordBinopOp kind rep Kind_kBitwiseAnd Word32 R :
  MaskBuilder_ok (WordBinopMask kind rep) = true ->
  disjoint_layout (WordBinopMask kind rep) = true ->
  fits kind Kind_kBitwiseAnd = true ->
  fits rep Word32 = true ->
  (Test (kWord32BitwiseAnd WordBinopOp kind rep Kind_kBitwiseAnd Word32) R = true <->
   Test (kBitwiseAnd WordBinopOp kind Kind_kBitwiseAnd) R = true /\
   record_field R rep = Word32) /\
  (forall Word64,
     fits rep Word64 = true -> Word32 <> Word64 ->
     ~ (Test (kWord32BitwiseAnd WordBinopOp kind rep Kind_kBitwiseAnd Word32) R = true /\
        Test (kWord64BitwiseAnd WordBinopOp kind rep Kind_kBitwiseAnd Word64) R = true)).
Proof.
  intros Hok Hd Hk Hr.
  assert (forall W, fits rep W = true ->
            all_fit (WordBinopMask kind rep) [Kind_kBitwiseAnd; W] = true) as Hfit2.
  { intros W HW. unfold all_fit, WordBinopMask. simpl. now rewrite Hk, HW. }
  assert (all_fit (WordBinopKindMask kind) [Kind_kBitwiseAnd] = true) as Hfit1.
  { unfold all_fit, WordBinopKindMask. simpl. now rewrite Hk. }
  destruct (disjoint_layout_app [kind] [rep] Hd) as [Hd1 _].
  assert (MaskBuilder_ok (WordBinopKindMask kind) = true) as Hok1.
  { unfold MaskBuilder_ok, WordBinopMask, WordBinopKindMask in *. simpl in *.
    apply andb_true_iff in Hok as [Hok _]. now rewrite Hok. }
  assert (forall W, fits rep W = true ->
            (Test (For WordBinopOp (WordBinopMask kind rep) [Kind_kBitwiseAnd; W]) R
             = true <->
             record_opcode R = opcode_value WordBinopOp /\
             record_field R kind = Kind_kBitwiseAnd /\ record_field R rep = W))
    as Hchar.
  { intros W HW.
    rewrite (Test_bindings_iff WordBinopOp _ _ R Hok (Hfit2 W HW) Hd).
    unfold WordBinopMask. simpl. rewrite !Forall_cons_iff. simpl.
    split; [intros [H1 [H2 [H3 _]]]; auto|intros [H1 [H2 H3]]; repeat split; auto]. }
  unfold kWord32BitwiseAnd, kWord64BitwiseAnd, kBitwiseAnd. split.
  - rewrite (Hchar Word32 Hr).
    rewrite (Test_bindings_iff WordBinopOp _ _ R Hok1 Hfit1 Hd1).
    unfold WordBinopKindMask. simpl. rewrite Forall_cons_iff. simpl.
    split; [intros [H1 [H2 H3]]; repeat split; auto|intros [[H1 [H2 _]] H3]; auto].
  - intros Word64 H64 Hne [H1 H2].
    apply (Hchar Word32 Hr) in H1. apply (Hchar Word64 H64) in H2.
    destruct H1 as [_ [_ H1]]. destruct H2 as [_ [_ H2]]. congruence.
Qed.

Lemma kWord32BitwiseAnd_refines_kBitwiseAnd_witness :
  MaskBuilder_ok (WordBinopMask kind_field rep_field) = true /\
  disjoint_layout (WordBinopMask kind_field rep_field) = true /\
  fits kind_field 0 = true /\
  fits rep_field 0 = true /\
  (Test (kWord32BitwiseAnd scenario_op kind_field rep_field 0 0) scenario_word32 = true <->
   Test (kBitwiseAnd scenario_op kind_field 0) scenario_word32 = true /\
   record_field scenario_word32 rep_field = 0).
Proof.
  split; [reflexivity|]. split; [reflexivity|]. split; [reflexivity|].
  split; [reflexivity|].
  apply (kWord32BitwiseAnd_refines_kBitwiseAnd scenario_op kind_field rep_field
           0 0 scenario_word32 eq_refl eq_refl eq_refl eq_refl).
Defined.
